(** * Xanthos documentation scripts: a shallow embedding and its properties

    The development follows the two scripts of the repository:

    - [scripts/generate_api_docs.py]: the method-section segmenter and grouper
      ([parse_methods]) and the table row collapser ([collapse_table_rows]);
    - [scripts/generate_error_catalog.py]: code normalisation
      ([normalize_code]), the record parsing loop, the catalog consolidation
      loop and the emission of the lookup table.

    Python values are modelled as follows.  A [str] is the list of its Unicode
    code points ([pystr]); [int] is [Z]; a [list] is a [list]; a [dict] whose
    iteration order is observed is an association list, a [dict] or [set] that is
    only looked up or iterated through [sorted] is a [gmap] or [gset]. *)

From Stdlib Require Import ZArith NArith Ascii String DecimalString.
From stdpp Require Import base option list gmap sorting.

(** ** Python strings *)

Module PyStr.

(** A Python [str]: the sequence of its code points. *)
Abbreviation pystr := (list N).

(** Decoder for the UTF-8 bytes of a literal of this file, so that the tables
    of the scripts can be written with the glyphs the scripts have. *)
Fixpoint utf8_decode (bs : list N) : pystr :=
  match bs with
  | [] => []
  | b0 :: r0 =>
    if (b0 <? 0x80)%N then b0 :: utf8_decode r0
    else match r0 with
    | [] => []
    | b1 :: r1 =>
      if (b0 <? 0xE0)%N
      then ((b0 mod 0x20) * 0x40 + b1 mod 0x40)%N :: utf8_decode r1
      else match r1 with
      | [] => []
      | b2 :: r2 =>
        if (b0 <? 0xF0)%N
        then ((b0 mod 0x10) * 0x1000 + (b1 mod 0x40) * 0x40 + b2 mod 0x40)%N
               :: utf8_decode r2
        else match r2 with
        | [] => []
        | b3 :: r3 =>
          ((b0 mod 0x08) * 0x40000 + (b1 mod 0x40) * 0x1000
           + (b2 mod 0x40) * 0x40 + b3 mod 0x40)%N :: utf8_decode r3
        end
      end
    end
  end.

Definition u (lit : string) : pystr :=
  utf8_decode (N_of_ascii <$> list_ascii_of_string lit).
Arguments u : simpl never.

Definition streq (a b : pystr) : bool := bool_decide (a = b).

(** Truthiness of a [str]: non-empty. *)
Definition truthy (s : pystr) : bool :=
  match s with [] => false | _ :: _ => true end.

(** [str.isspace] on one code point; also the class [\s] of [re] on [str]
    patterns and the characters [str.strip()] and [str.split()] remove. *)
Definition is_space (c : N) : bool :=
  ((0x09 <=? c) && (c <=? 0x0D) || (0x1C <=? c) && (c <=? 0x20)
   || (c =? 0x85) || (c =? 0xA0) || (c =? 0x1680)
   || (0x2000 <=? c) && (c <=? 0x200A)
   || (c =? 0x2028) || (c =? 0x2029) || (c =? 0x202F) || (c =? 0x205F)
   || (c =? 0x3000))%N.

Fixpoint lstrip (s : pystr) : pystr :=
  match s with
  | c :: r => if is_space c then lstrip r else s
  | [] => []
  end.

Definition rstrip (s : pystr) : pystr := reverse (lstrip (reverse s)).

(** [s.strip()] *)
Definition strip (s : pystr) : pystr := rstrip (lstrip s).

(** [s.startswith(p)] *)
Fixpoint startswith (s p : pystr) : bool :=
  match p, s with
  | [], _ => true
  | a :: p', b :: s' => (a =? b)%N && startswith s' p'
  | _ :: _, [] => false
  end.

(** [s.endswith(p)] *)
Definition endswith (s p : pystr) : bool := startswith (reverse s) (reverse p).

(** [s.replace(old, new)] for a non-empty [old]: occurrences are replaced from
    the left and do not overlap.  [skip] counts the characters of an occurrence
    that are still to be passed over. *)
Fixpoint replace_go (old new : pystr) (skip : nat) (s : pystr) : pystr :=
  match s with
  | [] => []
  | c :: r =>
    match skip with
    | S k => replace_go old new k r
    | O =>
      if startswith s old
      then new ++ replace_go old new (pred (length old)) r
      else c :: replace_go old new 0 r
    end
  end.

Definition replace (old new s : pystr) : pystr := replace_go old new 0 s.

(** [p in s] on strings: [p] occurs as a substring. *)
Fixpoint contains (s p : pystr) : bool :=
  startswith s p || match s with [] => false | _ :: r => contains r p end.

(** [sep.join(parts)] *)
Fixpoint join (sep : pystr) (parts : list pystr) : pystr :=
  match parts with
  | [] => []
  | [p] => p
  | p :: ps => p ++ sep ++ join sep ps
  end.

(** [s.split(sep)] for a separator of one code point. *)
Fixpoint split_on (sep : N) (s : pystr) : list pystr :=
  match s with
  | [] => [[]]
  | c :: r =>
    if (c =? sep)%N then [] :: split_on sep r
    else match split_on sep r with
         | w :: ws => (c :: w) :: ws
         | [] => [[c]]
         end
  end.

(** Zero digits of the decimal-digit blocks of Unicode 14 (the characters of
    category Nd, the class [\d] of [re] on [str] patterns, which [int] reads
    as digits): every block holds the ten digits in order. *)
Definition nd_zeros : list N :=
  [0x30; 0x660; 0x6F0; 0x7C0; 0x966; 0x9E6; 0xA66; 0xAE6; 0xB66; 0xBE6; 0xC66;
   0xCE6; 0xD66; 0xDE6; 0xE50; 0xED0; 0xF20; 0x1040; 0x1090; 0x17E0; 0x1810;
   0x1946; 0x19D0; 0x1A80; 0x1A90; 0x1B50; 0x1BB0; 0x1C40; 0x1C50; 0xA620;
   0xA8D0; 0xA900; 0xA9D0; 0xA9F0; 0xAA50; 0xABF0; 0xFF10; 0x104A0; 0x10D30;
   0x11066; 0x110F0; 0x11136; 0x111D0; 0x112F0; 0x11450; 0x114D0; 0x11650;
   0x116C0; 0x11730; 0x118E0; 0x11950; 0x11C50; 0x11D50; 0x11DA0; 0x16A60;
   0x16AC0; 0x16B50; 0x1D7CE; 0x1D7D8; 0x1D7E2; 0x1D7EC; 0x1D7F6; 0x1E140;
   0x1E2F0; 0x1E950; 0x1FBF0]%N.

(** The value of a decimal digit, [None] for any other code point. *)
Definition digit_value (c : N) : option N :=
  (λ z, c - z)%N <$> find (λ z, (z <=? c) && (c <? z + 10))%N nd_zeros.

Definition is_digit (c : N) : bool := bool_decide (is_Some (digit_value c)).

Definition minus_sign : N := 0x2D%N.

(** The longest prefix of decimal digits: what a greedy [\d+] takes. *)
Fixpoint take_digits (s : pystr) : pystr :=
  match s with
  | c :: r => if is_digit c then c :: take_digits r else []
  | [] => []
  end.

(** [re.search(r"-?\d+", s)]: the text of the leftmost match, if any.  At a
    position holding [-] the optional sign is taken when a digit follows;
    without one the pattern cannot match there, since [-] is no digit. *)
Fixpoint search_signed_int (s : pystr) : option pystr :=
  match s with
  | [] => None
  | c :: r =>
    if is_digit c then Some (c :: take_digits r)
    else if (c =? minus_sign)%N then
      match take_digits r with
      | [] => search_signed_int r
      | ds => Some (c :: ds)
      end
    else search_signed_int r
  end.

(** [int(s)] on a run of decimal digits, most significant first. *)
Definition int_digits (s : pystr) : option Z :=
  foldl (λ acc c, a ← acc; d ← digit_value c; Some (10 * a + Z.of_N d)%Z)
        (Some 0%Z) s.

(** The value of a decimal literal, an optional [-] and at least one digit;
    [None] for a text that is no such literal. *)
Definition int_literal (s : pystr) : option Z :=
  match s with
  | [] => None
  | c :: r =>
    if (c =? minus_sign)%N
    then match r with [] => None | _ => Z.opp <$> int_digits r end
    else int_digits s
  end.

(** [str(n)] for an [int]. *)
Definition str_of_int (n : Z) : pystr :=
  u (NilEmpty.string_of_int (Z.to_int n)).

(** The case mappings [str.lower] and [str.upper] restricted to ASCII letters;
    every other code point is kept.  The scripts' own functions take the case
    mapping as a parameter; these two instantiate it on ASCII and caseless
    text. *)
Definition ascii_lower (s : pystr) : pystr :=
  (λ c, if (0x41 <=? c) && (c <=? 0x5A) then c + 0x20 else c)%N <$> s.

Definition ascii_upper (s : pystr) : pystr :=
  (λ c, if (0x61 <=? c) && (c <=? 0x7A) then c - 0x20 else c)%N <$> s.

(** Lexicographic order of code points: [<=] on [str], the order of [sorted]. *)
Fixpoint str_leb (a b : pystr) : bool :=
  match a, b with
  | [], _ => true
  | _ :: _, [] => false
  | x :: a', y :: b' =>
    if (x <? y)%N then true else if (y <? x)%N then false else str_leb a' b'
  end.

Definition str_le (a b : pystr) : Prop := str_leb a b = true.

#[global] Instance str_le_dec : RelDecision str_le :=
  λ a b, decide (str_leb a b = true).

(** What a function or a script returns or raises; [msg] is the text of the
    exception ([RuntimeError], [SystemExit], [ValueError]). *)
Inductive outcome (A : Type) : Type :=
  | Ok (a : A)
  | Raise (msg : pystr).
Arguments Ok {A} a.
Arguments Raise {A} msg.

(** [sys.get_int_max_str_digits()]: the limit of CPython 3.11 on the number of
    digits of a decimal text that [int] converts, at its default. *)
Definition int_max_str_digits : nat := 4300.

(** The message of the [ValueError] [int] raises on a text with more digits
    than the limit. *)
Definition int_limit_message (digits : nat) : pystr :=
  u "Exceeds the limit (4300 digits) for integer string conversion: value has "
  ++ str_of_int (Z.of_nat digits)
  ++ u " digits; use sys.set_int_max_str_digits() to increase the limit".

(** [int(s)] for the texts [search_signed_int] returns.  The digits are
    counted without the sign, leading zeros included, and a text with more of
    them than the limit raises [ValueError].  On a text that is no literal
    Python raises the other [ValueError] of [int], whose message shows the
    text; the search returns no such text, and the model keeps the head of that
    message. *)
Definition py_int (s : pystr) : outcome Z :=
  let digits := length (filter (λ c, is_digit c = true) s) in
  if bool_decide (int_max_str_digits < digits)
  then Raise (int_limit_message digits)
  else match int_literal s with
       | Some n => Ok n
       | None => Raise (u "invalid literal for int() with base 10")
       end.

End PyStr.

Import PyStr.

(** ** [generate_api_docs.py] *)

Module ApiDocs.

(** [METHOD_NAMES], in declaration order. *)
Definition METHOD_NAMES : list pystr :=
  [ u "JVInit"; u "JVSetUIProperties"; u "JVSetServiceKey"; u "JVSetSaveFlag";
    u "JVSetSavePath"; u "JVOpen"; u "JVRTOpen"; u "JVStatus"; u "JVRead";
    u "JVGets"; u "JVSkip"; u "JVCancel"; u "JVClose"; u "JVFiledelete";
    u "JVFukuFile"; u "JVFuku"; u "JVMVCheck"; u "JVMVCheckWithType";
    u "JVMVPlay"; u "JVMVPlayWithType"; u "JVMVOpen"; u "JVMVRead";
    u "JVCourseFile"; u "JVCourseFile2"; u "JVWatchEvent";
    u "JVWatchEventClose" ].

(** [method_set = set(METHOD_NAMES)] *)
Definition method_set : gset pystr := list_to_set METHOD_NAMES.

Definition in_method_set (line : pystr) : bool := bool_decide (line ∈ method_set).

(** *** Table row collapser *)

(** The default predicate, [lambda r: bool(r and r[0])]. *)
Definition default_is_new_row (r : list pystr) : bool :=
  match r with
  | c :: _ => truthy c
  | [] => false
  end.

(** The assignment to [current[idx]] for one cell of a continuation row, under
    the guard [if value]. *)
Definition append_cell (cur value : pystr) : pystr :=
  if truthy value
  then (if truthy cur then strip (cur ++ u " " ++ value) else value)
  else cur.

(** [for idx, value in enumerate(values): if value: current[idx] = ...], with
    [idx] counted from [k].  [current] and [values] both have the header's
    width, so [current[idx]] is always in range; an index out of range, which
    raises in Python, leaves the row as it is here. *)
Fixpoint merge_cells (k : nat) (current values : list pystr) : list pystr :=
  match values with
  | [] => current
  | value :: rest =>
    let current' :=
      if truthy value
      then match current !! k with
           | Some c => <[k := append_cell c value]> current
           | None => current
           end
      else current in
    merge_cells (S k) current' rest
  end.

(** [row + [""] * max(0, len(header) - len(row))] *)
Definition pad_to (header row : list pystr) : list pystr :=
  row ++ replicate (length header - length row) [].

(** The loop state: the rows appended to [collapsed] after the header that are
    closed, and [current].  In the script [current] is the very list object
    last appended to [collapsed], so that writing [current[idx]] changes the
    last row of [collapsed]; here that last row is kept in [cs_current] until
    the loop ends or the next record starts. *)
Record collapse_state := CollapseState {
  cs_closed : list (list pystr);
  cs_current : option (list pystr)
}.

Definition collapsed_rows (header : list pystr) (st : collapse_state)
  : list (list pystr) :=
  header :: cs_closed st ++ option_list (cs_current st).

(** One iteration of [for row in rows[1:]]; [elif current:] holds for a
    [current] that is a non-empty list. *)
Definition collapse_step (header : list pystr)
    (is_new_row : list pystr → bool) (st : collapse_state) (row : list pystr)
  : collapse_state :=
  let padded := pad_to header row in
  if is_new_row row then
    CollapseState (cs_closed st ++ option_list (cs_current st))
                  (Some (take (length header) padded))
  else
    match cs_current st with
    | Some current =>
      if bool_decide (current = []) then st
      else CollapseState (cs_closed st)
             (Some (merge_cells 0 current (take (length header) padded)))
    | None => st
    end.

(** [collapse_table_rows(rows, is_new_row)]; [None] for the predicate selects
    the default. *)
Definition collapse_table_rows (rows : list (list pystr))
    (is_new_row : option (list pystr → bool)) : list (list pystr) :=
  match rows with
  | [] => []
  | header :: data =>
    let p := default default_is_new_row is_new_row in
    collapsed_rows header
      (foldl (collapse_step header p) (CollapseState [] None) data)
  end.

(** *** Method-section segmenter ([parse_methods], first half) *)

(** The dictionaries [{"name": ..., "summary": ..., "sections": {...}}];
    [sections] keeps its insertion order. *)
Record MethodDefinition := MkMethod {
  name : pystr;
  summary : pystr;
  sections : list (pystr * pystr)
}.

(** [d[key] = value] on an insertion-ordered [dict]. *)
Fixpoint dict_set (key value : pystr) (d : list (pystr * pystr))
  : list (pystr * pystr) :=
  match d with
  | [] => [(key, value)]
  | (k, v) :: rest =>
    if streq k key then (k, value) :: rest
    else (k, v) :: dict_set key value rest
  end.

(** [d.get(key)] *)
Fixpoint dict_get (key : pystr) (d : list (pystr * pystr)) : option pystr :=
  match d with
  | [] => None
  | (k, v) :: rest => if streq k key then Some v else dict_get key rest
  end.

(** The loop that merges fragments such as ["JVSetUIPropertie"] + ["s"]
    (lines 122-133): where a line and its successor concatenate to a method
    name and the line alone is none, the two become one line. *)
Fixpoint merge_fragments (processed : list pystr) : list pystr :=
  match processed with
  | [] => []
  | line :: tl =>
    match tl with
    | nxt :: tl' =>
      let combined := strip (line ++ nxt) in
      if in_method_set combined && negb (in_method_set line)
      then combined :: merge_fragments tl'
      else line :: merge_fragments tl
    | [] => [line]
    end
  end.

Definition open_bracket : pystr := u "【".
Definition close_bracket : pystr := u "】".

(** [line.startswith("【") and line.endswith("】")] *)
Definition is_label (line : pystr) : bool :=
  startswith line open_bracket && endswith line close_bracket.

(** [line[1:-1]] *)
Definition label_key (line : pystr) : pystr := removelast (tail line).

(** Where the scan of [detail_lines] stands (lines 145-192).  The script is a
    [while] loop over an index [i] with two inner loops that advance the same
    index; the state below names the loop the index is in:
    - [Outer]: at the head of the outer loop (line 145);
    - [AfterName]: a method name was just matched; blank lines are skipped and
      the next line may be the summary (lines 157-167);
    - [InBlock key block]: inside the loop collecting the body of the section
      [key] (lines 177-188). *)
Inductive scan_mode :=
  | Outer
  | AfterName
  | InBlock (key : pystr) (block : list pystr).

Record scan_state := ScanState {
  methods : list MethodDefinition;
  current : option MethodDefinition;
  method_idx : nat;
  mode : scan_mode
}.

(** One pass of the outer loop on [line], from its head (lines 146-192). Once
    [method_idx] has reached [len(METHOD_NAMES)] the loop has ended and the
    line is not read. *)
Definition outer_step (st : scan_state) (line : pystr) : scan_state :=
  match METHOD_NAMES !! method_idx st with
  | None => st
  | Some expected =>
    if streq line expected then
      ScanState (methods st ++ option_list (current st))
                (Some (MkMethod line [] []))
                (S (method_idx st)) AfterName
    else
      match current st with
      | None => st
      | Some _ =>
        if is_label line
        then ScanState (methods st) (current st) (method_idx st)
                       (InBlock (label_key line) [])
        else st
      end
  end.

(** [current["summary"] = line] *)
Definition set_summary (line : pystr) (m : MethodDefinition) : MethodDefinition :=
  MkMethod (name m) line (sections m).

(** [current["sections"][key] = "\n".join(block).strip()] (line 189), which
    ends the section loop. *)
Definition close_block (st : scan_state) (key : pystr) (block : list pystr)
  : scan_state :=
  ScanState (methods st)
    ((λ m, MkMethod (name m) (summary m)
             (dict_set key (strip (join (u (String "010" EmptyString)) block))
                       (sections m))) <$> current st)
    (method_idx st) Outer.

(** The scan advanced over one line.  A [break] of the section loop and the
    [continue] after the summary test hand the same line to the outer loop. *)
Definition scan_step (st : scan_state) (line : pystr) : scan_state :=
  match mode st with
  | Outer => outer_step st line
  | AfterName =>
    if negb (truthy line) then st
    else if negb (in_method_set line) && negb (startswith line open_bracket)
    then ScanState (methods st) (set_summary line <$> current st)
                   (method_idx st) Outer
    else outer_step (ScanState (methods st) (current st) (method_idx st) Outer)
                    line
  | InBlock key block =>
    if negb (truthy line)
    then ScanState (methods st) (current st) (method_idx st)
                   (InBlock key (block ++ [[]]))
    else if is_label line then outer_step (close_block st key block) line
    else if bool_decide (METHOD_NAMES !! method_idx st = Some line)
    then outer_step (close_block st key block) line
    else ScanState (methods st) (current st) (method_idx st)
                   (InBlock key (block ++ [line]))
  end.

(** The end of [detail_lines]: a section still open is stored, and
    [if current: methods.append(current)] (lines 194-195). *)
Definition scan_finish (st : scan_state) : list MethodDefinition :=
  let st' := match mode st with
             | InBlock key block => close_block st key block
             | _ => st
             end in
  methods st' ++ option_list (current st').

Definition scan_methods (detail_lines : list pystr) : list MethodDefinition :=
  scan_finish (foldl scan_step (ScanState [] None 0 Outer) detail_lines).

Definition JVInit : pystr := u "JVInit".

(** [[idx for idx, value in enumerate(merged) if value == "JVInit"]], with
    indices counted from [k]. *)
Fixpoint indices_from (k : nat) (merged : list pystr) : list nat :=
  match merged with
  | [] => []
  | value :: rest =>
    if streq value JVInit then k :: indices_from (S k) rest
    else indices_from (S k) rest
  end.

(** Lines 135-195: the detail section starts at the second [JVInit]. *)
Definition segment_methods (merged : list pystr)
  : outcome (list MethodDefinition) :=
  match indices_from 0 merged with
  | _ :: second :: _ => Ok (scan_methods (drop second merged))
  | _ => Raise (u "Unable to locate method detail section.")
  end.

(** *** Method grouper ([parse_methods], second half) *)

Record MethodEntry := MkEntry {
  entry_name : pystr;
  entry_summary : pystr
}.

Record MethodGroup := MkGroup {
  title : pystr;
  group_methods : list MethodEntry;
  group_sections : list (pystr * pystr)
}.

(** [grouping] *)
Definition grouping : list (pystr * pystr) :=
  [ (u "JVMVCheck", u "JVMVCheckWithType");
    (u "JVMVPlay", u "JVMVPlayWithType");
    (u "JVWatchEvent", u "JVWatchEventClose") ].

(** [a or b] on strings *)
Definition str_or (a b : pystr) : pystr := if truthy a then a else b.

(** [{m["name"]: m for m in methods}]: a later method of the same name
    replaces an earlier one. *)
Definition method_lookup (ms : list MethodDefinition)
  : gmap pystr MethodDefinition :=
  foldl (λ acc m, <[name m := m]> acc) ∅ ms.

Section Grouper.

(** The order in which Python iterates over the set built from a list of keys.
    The language leaves it open; the grouper is modelled for any order. *)
Variable set_order : list pystr → list pystr.

(** [p.get(key) or s.get(key) or ""] *)
Definition merged_value (p s : list (pystr * pystr)) (key : pystr) : pystr :=
  str_or (default [] (dict_get key p)) (str_or (default [] (dict_get key s)) []).

Definition merged_sections (p s : list (pystr * pystr))
  : list (pystr * pystr) :=
  foldl (λ acc key, dict_set key (merged_value p s key) acc) []
        (set_order ((fst <$> p) ++ (fst <$> s))).

(** The first loop (lines 207-239): one group for each pair of [grouping] whose
    two members are both in [method_lookup].  The state is [grouped_methods]
    and [grouped_names]. *)
Definition group_pair (lookup : gmap pystr MethodDefinition)
    (st : list MethodGroup * gset pystr) (pair : pystr * pystr)
  : list MethodGroup * gset pystr :=
  let '(primary, secondary) := pair in
  match lookup !! primary, lookup !! secondary with
  | Some p, Some s =>
    (st.1 ++ [MkGroup (primary ++ u " / " ++ secondary)
                [ MkEntry primary (str_or (summary p) (u "See shared details below."));
                  MkEntry secondary (str_or (summary s) (u "See shared details below.")) ]
                (merged_sections (sections p) (sections s))],
     {[primary]} ∪ ({[secondary]} ∪ st.2))
  | _, _ => st
  end.

(** The second loop (lines 241-255): a singleton group for every name of
    [METHOD_NAMES] that is in no pair emitted and is in [method_lookup]. *)
Definition group_single (lookup : gmap pystr MethodDefinition)
    (grouped_names : gset pystr) (acc : list MethodGroup) (nm : pystr)
  : list MethodGroup :=
  if bool_decide (nm ∈ grouped_names) then acc
  else match lookup !! nm with
       | None => acc
       | Some info =>
         acc ++ [MkGroup nm [MkEntry nm (str_or (summary info) (u "See details below."))]
                         (sections info)]
       end.

Definition group_related (ms : list MethodDefinition) : list MethodGroup :=
  let lookup := method_lookup ms in
  let '(grouped_methods, grouped_names) :=
    foldl (group_pair lookup) ([], ∅) grouping in
  foldl (group_single lookup grouped_names) grouped_methods METHOD_NAMES.

(** [parse_methods] from the list [processed] of normalised, non-empty lines
    (line 117) on. *)
Definition parse_methods (processed : list pystr) : outcome (list MethodGroup) :=
  match segment_methods (merge_fragments processed) with
  | Ok ms => Ok (group_related ms)
  | Raise msg => Raise msg
  end.

End Grouper.

(** The order of first occurrence, one of the orders a set may iterate in. *)
Definition first_seen (keys : list pystr) : list pystr := remove_dups keys.

End ApiDocs.

(** ** [generate_error_catalog.py] *)

Module ErrorCatalog.

(** *** The fixed tables *)

(** [CATEGORY_KEYWORDS] *)
Definition CATEGORY_KEYWORDS : list (pystr * list pystr) :=
  [ (u "input", [u "パラメータ"; u "入力"; u "spec"; u "option"; u "key";
                 u "fromtime"; u "filepath"; u "dataspec"; u "parameter"]);
    (u "authentication", [u "認証"; u "利用キー"; u "同意"; u "有効期限";
                          u "license"; u "authentication"]);
    (u "maintenance", [u "メンテナンス"; u "maintenance"]);
    (u "download", [u "ダウンロード"; u "通信"; u "サーバー"; u "download";
                    u "server"]);
    (u "internal", [u "内部エラー"; u "internal"; u "レジストリ"]);
    (u "state", [u "行なわれていない"; u "呼ばれていない"; u "オープン中";
                 u "closed"; u "open"; u "state"]) ].

Definition CODE_MESSAGES_items : list (Z * pystr) :=
  [ (-504, u "Service is currently under maintenance.");
    (-503, u "Required file or temporary file was deleted before JVLink could process it.");
    (-502, u "Download failed because of a communication or disk error.");
    (-501, u "Setup media (CD/DVD) is invalid or missing.");
    (-431, u "Server reported an internal error.");
    (-421, u "Server returned a malformed response.");
    (-413, u "Server returned HTTP 403/other restricted status.");
    (-412, u "Server returned HTTP 403 Forbidden.");
    (-411, u "Server returned HTTP 404 or registry contents are invalid.");
    (-403, u "Downloaded data is corrupted.");
    (-402, u "Downloaded file has an invalid size.");
    (-401, u "JV-Link reported an internal error.");
    (-305, u "User agreement has not been accepted.");
    (-304, u "Movie license state is invalid.");
    (-303, u "Service key is not configured.");
    (-302, u "Service key has expired.");
    (-301, u "Authentication failure (invalid or duplicated service key).");
    (-211, u "Registry values are invalid or JVInit has not been executed.");
    (-203, u "JVOpen was not executed before the current call.");
    (-202, u "Previous JVOpen/JVRTOpen/JVMVOpen session is still open.");
    (-201, u "JVInit was not executed before the current call.");
    (-118, u "File path parameter is invalid or the directory does not exist.");
    (-116, u "Option and dataspec combination is invalid.");
    (-115, u "Option parameter is invalid.");
    (-114, u "Key parameter is invalid.");
    (-113, u "Fromtime (end) parameter is invalid.");
    (-112, u "Fromtime (start) parameter is invalid.");
    (-111, u "Dataspec parameter is invalid.");
    (-103, u "SID begins with a space.");
    (-102, u "SID exceeds 64 bytes.");
    (-101, u "SID is missing.");
    (-100, u "UI configuration was cancelled or could not be persisted.");
    (-3, u "Target files are still downloading.");
    (-2, u "Setup dialog was cancelled by the user.");
    (-1, u "No matching data exists for the current parameters.");
    (0, u "Operation completed successfully.");
    (1, u "Victory silks image was created successfully.") ]%Z.

(** [CODE_MESSAGES] *)
Definition CODE_MESSAGES : gmap Z pystr := list_to_map CODE_MESSAGES_items.

Definition METHOD_MESSAGE_OVERRIDES_items : list (Z * list (pystr * pystr)) :=
  [ (-503, [ (u "JVCLOSE", u "Target file was already removed; closure can continue.") ]);
    (-411, [ (u "JVFUKU", u "Server returned HTTP 404/Not Found for the requested resource.");
             (u "JVMVPLAY", u "Server returned HTTP 404/Not Found for the requested movie.");
             (u "JVMVPLAYWITHTYPE", u "Server returned HTTP 404/Not Found for the requested movie.") ]);
    (-201, [ (u "JVCLOSE", u "JVInit must be executed before JVClose.");
             (u "JVCOURSEFILE", u "JVInit must be executed before requesting course data.");
             (u "JVCOURSEFILE2", u "JVInit must be executed before requesting course data.");
             (u "JVFUKU", u "JVInit must be executed before requesting silks data.");
             (u "JVMVCHECK", u "JVInit must be executed before calling movie APIs.");
             (u "JVMVCHECKWITHTYPE", u "JVInit must be executed before calling movie APIs.");
             (u "JVMVOPEN", u "JVInit must be executed before opening movie lists.");
             (u "JVMVPLAY", u "JVInit must be executed before playing movies.");
             (u "JVMVPLAYWITHTYPE", u "JVInit must be executed before playing movies.");
             (u "JVMVREAD", u "JVInit must be executed before reading movie lists.");
             (u "JVOPEN", u "JVInit must be executed before JVOpen.");
             (u "JVSETUIPROPERTIES", u "JVInit must be executed before configuring UI settings.") ]);
    (-1, [ (u "JVCLOSE", u "File boundary reached; continue with the next file.");
           (u "JVOPEN", u "File boundary reached; continue reading.");
           (u "JVREAD", u "File boundary reached; continue reading.");
           (u "JVGETS", u "File boundary reached; continue reading.") ]);
    (0, [ (u "JVSETUIPROPERTIES", u "Settings saved successfully.");
          (u "JVOPEN", u "All files processed successfully.") ]) ]%Z.

(** [METHOD_MESSAGE_OVERRIDES]; the inner dictionaries are kept as the lists of
    their items. *)
Definition METHOD_MESSAGE_OVERRIDES : gmap Z (list (pystr * pystr)) :=
  list_to_map METHOD_MESSAGE_OVERRIDES_items.

(** *** Normalisation of one field *)

(** [normalize_code]: U+2015 (horizontal bar) and U+2212 (minus sign) are
    replaced by the ASCII hyphen-minus, then the leftmost [-?\d+] is read as an
    integer; [Ok None] is the result [None], and the [ValueError] of [int] is
    not caught. *)
Definition normalize_code (raw : pystr) : outcome (option Z) :=
  let text := replace (u "−") (u "-") (replace (u "―") (u "-") raw) in
  match search_signed_int text with
  | Some m =>
    match py_int m with
    | Ok n => Ok (Some n)
    | Raise msg => Raise msg
    end
  | None => Ok None
  end.

(** The length of the match of [[,/]\s*|\s+and\s+|、|，] at the head of [s],
    if there is one. *)
Definition separator_length (s : pystr) : option nat :=
  match s with
  | [] => None
  | c :: r =>
    if (c =? 0x2C)%N || (c =? 0x2F)%N
    then Some (S (length r - length (lstrip r)))
    else if is_space c then
      let after := lstrip s in
      if startswith after (u "and") then
        let tail_ := drop 3 after in
        if bool_decide (length (lstrip tail_) < length tail_)
        then Some (length s - length (lstrip tail_))
        else None
      else None
    else if (c =? 0x3001)%N || (c =? 0xFF0C)%N then Some 1
    else None
  end.

(** [re.split] with that pattern: [piece] is the text since the last
    separator, [skip] the characters of a separator still to pass. *)
Fixpoint split_methods (skip : nat) (piece s : pystr) : list pystr :=
  match s with
  | [] => [piece]
  | c :: r =>
    match skip with
    | S k => split_methods k piece r
    | O =>
      match separator_length s with
      | Some n => piece :: split_methods (pred n) [] r
      | None => split_methods 0 (piece ++ [c]) r
      end
    end
  end.

(** [normalize_methods] *)
Definition normalize_methods (raw : pystr) : list pystr :=
  let cleaned := filter (λ p, truthy p = true) (strip <$> split_methods 0 [] raw) in
  match cleaned with
  | [] => [u "(Unknown)"]
  | _ => cleaned
  end.

(** The class of hiragana, katakana and CJK unified ideographs,
    U+3040..U+30FF and U+4E00..U+9FFF. *)
Definition is_cjk (c : N) : bool :=
  ((0x3040 <=? c) && (c <=? 0x30FF) || (0x4E00 <=? c) && (c <=? 0x9FFF))%N.

(** [[A-Za-z0-9]] *)
Definition is_alnum (c : N) : bool :=
  ((0x41 <=? c) && (c <=? 0x5A) || (0x61 <=? c) && (c <=? 0x7A)
   || (0x30 <=? c) && (c <=? 0x39))%N.

Definition on_char (p : N → bool) (c : option N) : bool :=
  match c with Some x => p x | None => false end.

Definition any_char (c : option N) : bool := true.

(** Where a scan stands with respect to a run of whitespace. *)
Inductive run_state := NoRun | KeepRun | DropRun.

(** [re.sub] for the patterns of [normalize_text] that are a run [\s+] with a
    condition on the character before it and on the character after it: a run
    is always matched whole (the characters next to it are no whitespace), and
    a matched run becomes [repl].  [prev] is the last character before the
    run. *)
Fixpoint sub_space_runs (pre post : option N → bool) (repl : pystr)
    (prev : option N) (rs : run_state) (s : pystr) : pystr :=
  match s with
  | [] => []
  | c :: r =>
    if is_space c then
      match rs with
      | DropRun => sub_space_runs pre post repl prev DropRun r
      | KeepRun => c :: sub_space_runs pre post repl prev KeepRun r
      | NoRun =>
        if pre prev && post (head (lstrip r))
        then repl ++ sub_space_runs pre post repl prev DropRun r
        else c :: sub_space_runs pre post repl prev KeepRun r
      end
    else c :: sub_space_runs pre post repl (Some c) NoRun r
  end.

Definition sub_runs (pre post : option N → bool) (repl s : pystr) : pystr :=
  sub_space_runs pre post repl None NoRun s.

Definition full_stop : N := 0x3002%N.

(** [re.sub] for one pattern of [insert_sentence_breaks],
    [(e1|..)(?!x1|..)(?=[^。])(b1|..)] replaced by [\1。]: the sentence-ending
    word is kept, a full stop follows it, and the text matched by the last
    group is not written back. *)
Fixpoint sub_sentence_break (ends excluded starts : list pystr) (skip : nat)
    (s : pystr) : pystr :=
  match s with
  | [] => []
  | c :: r =>
    match skip with
    | S k => sub_sentence_break ends excluded starts k r
    | O =>
      match find (λ e, startswith s e) ends with
      | Some e =>
        let rest := drop (length e) s in
        if negb (existsb (λ x, startswith rest x) excluded)
           && on_char (λ x, negb (x =? full_stop)%N) (head rest)
        then match find (λ b, startswith rest b) starts with
             | Some b =>
               e ++ [full_stop]
                 ++ sub_sentence_break ends excluded starts
                      (pred (length e + length b)) r
             | None => c :: sub_sentence_break ends excluded starts 0 r
             end
        else c :: sub_sentence_break ends excluded starts 0 r
      | None => c :: sub_sentence_break ends excluded starts 0 r
      end
    end
  end.

Definition sentence_starts : list pystr :=
  [u "既に"; u "また"; u "この"; u "その"; u "正しく"; u "サンプル"; u "JV";
   u "パラメータ"; u "利用"; u "レジストリ"].

(** [insert_sentence_breaks] *)
Definition insert_sentence_breaks (text : pystr) : pystr :=
  let r1 := sub_sentence_break [u "失敗"] [] sentence_starts 0 text in
  let r2 := sub_sentence_break [u "不正"] [u "あるいは"]
              (sentence_starts ++ [u "データ"]) 0 r1 in
  let r3 := sub_sentence_break [u "されている"] [] sentence_starts 0 r2 in
  let r4 := sub_sentence_break [u "ください"] [] sentence_starts 0 r3 in
  sub_sentence_break [u "です"; u "ます"] [] sentence_starts 0 r4.

Definition is_char (x : N) (c : option N) : bool := on_char (N.eqb x) c.

(** [normalize_text] *)
Definition normalize_text (raw : pystr) : pystr :=
  let c0 := replace (u "同上") [] (replace (u "同上同上") [] raw) in
  let c1 := sub_runs (on_char is_cjk) (on_char is_cjk) [] c0 in
  let c2 := sub_runs (on_char is_cjk) (on_char is_alnum) [] c1 in
  let c3 := sub_runs (on_char is_alnum) (on_char is_cjk) [] c2 in
  let c4 := sub_runs any_char (is_char 0x28) [] c3 in
  let c5 := sub_runs (is_char 0x28) any_char [] c4 in
  let c6 := sub_runs any_char (is_char 0x29) [] c5 in
  let c7 := sub_runs (is_char 0x29) any_char [] c6 in
  let c8 := sub_runs any_char any_char (u " ") c7 in
  strip (insert_sentence_breaks c8).

(** [normalize_doc] *)
Definition normalize_doc (meaning notes : pystr) : pystr :=
  normalize_text (join (u " ") (filter (λ p, truthy p = true) [meaning; notes])).

(** *** Records, catalog and emission *)

(** One element of [records]. *)
Record error_record := MkRecord {
  rec_methods : list pystr;
  rec_code : Z;
  rec_category : pystr;
  rec_meaning : pystr;
  rec_notes : pystr;
  rec_documentation : pystr
}.

(** One value of an entry's ["overrides"]: [None] or a text per field. *)
Record override := MkOverride {
  ov_category : option pystr;
  ov_message : option pystr;
  ov_doc : option pystr
}.

(** One value of [catalog].  [methods] is a set and [overrides] a dictionary
    keyed by method; both are read through [sorted] only. *)
Record entry := MkCatalogEntry {
  base_category : pystr;
  base_message : pystr;
  base_doc : pystr;
  entry_methods : gset pystr;
  overrides : gmap pystr override
}.

(** What is interpolated into one line of the generated table: the values of
    the F# record [JvErrorInfo], before they are rendered as text. *)
Record JvErrorOverride := MkJvOverride {
  Category : option pystr;
  Message : option pystr;
  Documentation : option pystr
}.

Record JvErrorInfo := MkJvInfo {
  Code : Z;
  BaseCategory : pystr;
  BaseMessage : pystr;
  BaseDocumentation : pystr;
  Methods : list pystr;
  Overrides : list (pystr * JvErrorOverride)
}.

(** The files the script writes, in the order it writes them. *)
Inductive io_event :=
  | WriteTarget (entries : list JvErrorInfo)
  | WriteSource (text : pystr).

(** The orders of [sorted] on the items of a dictionary: by key. *)
Definition by_method {A : Type} (p q : pystr * A) : Prop := str_le p.1 q.1.

#[global] Instance by_method_dec {A : Type} : RelDecision (@by_method A) :=
  λ p q, decide (str_leb p.1 q.1 = true).

Definition by_code {A : Type} (p q : Z * A) : Prop := (p.1 ≤ q.1)%Z.

#[global] Instance by_code_dec {A : Type} : RelDecision (@by_code A) :=
  λ p q, decide (p.1 ≤ q.1)%Z.

Section Scripts.

(** [str.lower] and [str.upper]: the Unicode case mappings of the interpreter,
    taken as given. *)
Variables (lower upper : pystr → pystr).

(** [infer_category] *)
Definition infer_category (text : pystr) : pystr :=
  let lowered := lower text in
  match find (λ ck, existsb (λ keyword, contains lowered (lower keyword)) ck.2)
             CATEGORY_KEYWORDS with
  | Some ck => ck.1
  | None => u "other"
  end.

(** [row.split("|")[1:-1]], each segment stripped. *)
Definition row_parts (row : pystr) : list pystr :=
  strip <$> removelast (tail (split_on 0x7C row)).

(** One pass of [for line in handle] (lines 168-196): the record appended,
    [Ok None] when the pass ends in [continue], or the [ValueError] that
    [normalize_code] lets through at line 179. *)
Definition parse_line (line : pystr) : outcome (option error_record) :=
  let row := strip line in
  if negb (startswith row (u "|")) then Ok None
  else
    match row_parts row with
    | methods_raw :: code_raw :: meaning_raw :: more =>
      if startswith methods_raw (u "Method")
         || streq code_raw (u "Code") || streq code_raw (u "コード")
      then Ok None
      else
        let notes := match more with n :: _ => n | [] => [] end in
        match normalize_code code_raw with
        | Raise msg => Raise msg
        | Ok None => Ok None
        | Ok (Some code) =>
          Ok (Some (MkRecord (normalize_methods methods_raw) code
                      (infer_category (meaning_raw ++ u " " ++ notes))
                      (normalize_text meaning_raw) (normalize_text notes)
                      (normalize_doc meaning_raw notes)))
        end
    | _ => Ok None
    end.

(** One pass of the loop on the records so far; an exception ends the loop. *)
Definition parse_step (acc : outcome (list error_record)) (line : pystr)
  : outcome (list error_record) :=
  match acc with
  | Raise msg => Raise msg
  | Ok records =>
    match parse_line line with
    | Raise msg => Raise msg
    | Ok None => Ok records
    | Ok (Some r) => Ok (records ++ [r])
    end
  end.

(** [records] after the loop over the lines of [SOURCE], or the exception that
    ended the loop. *)
Definition parse_records (lines : list pystr) : outcome (list error_record) :=
  foldl parse_step (Ok []) lines.

(** [{key.upper(): value for key, value in
      METHOD_MESSAGE_OVERRIDES.get(code, {}).items()}] *)
Definition method_message_map (code : Z) : gmap pystr pystr :=
  foldl (λ acc kv, <[upper kv.1 := kv.2]> acc) ∅
        (default [] (METHOD_MESSAGE_OVERRIDES !! code)).

Definition empty_override : override := MkOverride None None None.

(** The three assignments of lines 224-229 on the override of [method]. *)
Definition update_override (r : error_record) (e : entry)
    (message_map : gmap pystr pystr) (method : pystr) (o : override)
  : override :=
  let o1 := if streq (rec_category r) (base_category e) then o
            else MkOverride (Some (rec_category r)) (ov_message o) (ov_doc o) in
  let o2 := match message_map !! method with
            | Some msg => MkOverride (ov_category o1) (Some msg) (ov_doc o1)
            | None => o1
            end in
  if truthy (rec_documentation r)
     && negb (streq (rec_documentation r) (base_doc e))
  then MkOverride (ov_category o2) (ov_message o2) (Some (rec_documentation r))
  else o2.

(** [for method in method_keys: override = entry["overrides"].setdefault(...)]
    and the assignments.  The methods of a set are distinct, so the order of
    the iteration does not show in the result. *)
Definition update_overrides (r : error_record) (e : entry)
    (message_map : gmap pystr pystr) (method_keys : gset pystr)
  : gmap pystr override :=
  foldr (λ method ovs,
           <[method := update_override r e message_map method
                         (default empty_override (ovs !! method))]> ovs)
        (overrides e) (elements method_keys).

Definition missing_message (code : Z) : pystr :=
  u "Missing English message for code " ++ str_of_int code.

(** One pass of [for record in records] (lines 200-229).  [entry] is the
    object stored in [catalog], changed in place; the model stores the changed
    entry back. *)
Definition consolidate_step (catalog : gmap Z entry) (r : error_record)
  : outcome (gmap Z entry) :=
  let code := rec_code r in
  let method_keys : gset pystr := list_to_set (upper <$> rec_methods r) in
  match CODE_MESSAGES !! code with
  | None => Raise (missing_message code)
  | Some message =>
    let message_map := method_message_map code in
    let e := default (MkCatalogEntry (rec_category r) message
                        (rec_documentation r) method_keys ∅)
                     (catalog !! code) in
    Ok (<[code := MkCatalogEntry (base_category e) (base_message e) (base_doc e)
                    (entry_methods e ∪ method_keys)
                    (update_overrides r e message_map method_keys)]> catalog)
  end.

Definition consolidate_from (catalog : gmap Z entry)
    (records : list error_record) : outcome (gmap Z entry) :=
  foldl (λ acc r, match acc with
                  | Ok c => consolidate_step c r
                  | Raise msg => Raise msg
                  end) (Ok catalog) records.

(** [catalog] after the loop, or the [SystemExit] that ended the script. *)
Definition consolidate (records : list error_record) : outcome (gmap Z entry) :=
  consolidate_from ∅ records.

(** [overrides_filtered] (lines 279-283) *)
Definition overrides_filtered (e : entry) : gmap pystr override :=
  filter (λ kv, is_Some (ov_category kv.2) ∨ is_Some (ov_message kv.2))
         (overrides e).

(** [Some ... if data[field] else None] *)
Definition if_truthy (field : option pystr) : option pystr :=
  match field with
  | Some s => if truthy s then Some s else None
  | None => None
  end.

Definition emit_override (o : override) : JvErrorOverride :=
  MkJvOverride (if_truthy (ov_category o)) (if_truthy (ov_message o))
               (if_truthy (ov_doc o)).

(** The values of one element of [body_lines] (lines 276-307). *)
Definition emit_entry (code : Z) (e : entry) : JvErrorInfo :=
  MkJvInfo code (base_category e) (base_message e) (base_doc e)
    (merge_sort str_le (elements (entry_methods e)))
    ((λ kv, (kv.1, emit_override kv.2))
       <$> merge_sort by_method (map_to_list (overrides_filtered e))).

(** [body_lines], for [sorted_codes] in order. *)
Definition emit (catalog : gmap Z entry) : list JvErrorInfo :=
  (λ ce, emit_entry ce.1 ce.2)
    <$> merge_sort by_code (map_to_list catalog).

(** [escape_markdown] *)
Definition escape_markdown (text : pystr) : pystr :=
  replace (u "|") (u "\|") text.

Definition newline : pystr := u (String "010" EmptyString).

(** [sanitized_lines], joined as written to [SOURCE] (lines 337-352). *)
Definition sanitized_text (records : list error_record) : pystr :=
  join newline
    ([ u "# JV-Link Error Codes"; [];
       u "Source: `JV-Link4901` specification (v4.9.0.1)."; [];
       u "| Method(s) | Code | Meaning | Notes |";
       u "| --- | --- | --- | --- |" ]
     ++ ((λ r, u "| " ++ join (u ", ") (rec_methods r) ++ u " | "
               ++ str_of_int (rec_code r) ++ u " | "
               ++ escape_markdown (rec_meaning r) ++ u " | "
               ++ escape_markdown (rec_notes r) ++ u " |") <$> records))
  ++ newline.

(** The script from line 165 on, on the lines of [SOURCE]: the files written,
    in order, and the message of the exception that ended the run, if any: the
    [ValueError] of the parsing loop or the [SystemExit] of the consolidation
    loop. *)
Definition generate (lines : list pystr) : list io_event * option pystr :=
  match parse_records lines with
  | Raise msg => ([], Some msg)
  | Ok records =>
    match consolidate records with
    | Raise msg => ([], Some msg)
    | Ok catalog =>
      ([WriteTarget (emit catalog); WriteSource (sanitized_text records)], None)
    end
  end.

End Scripts.

End ErrorCatalog.

(** * Properties *)

(** ** The table row collapser *)

Module CollapserFacts.
Import ApiDocs.

Lemma append_cell_empty c : append_cell c [] = c.
Proof. reflexivity. Qed.

Lemma merge_cells_length vals : ∀ k cur,
  length (merge_cells k cur vals) = length cur.
Proof.
  induction vals as [|v vals IH]; intros k cur; simpl; [done|].
  rewrite IH. destruct (truthy v); [|done].
  destruct (cur !! k); [by rewrite length_insert|done].
Qed.

(** Cell [i] of the merged row: the cells from [k] on take the value of the
    continuation row at the same column. *)
Lemma merge_cells_lookup vals : ∀ k cur i c,
  cur !! i = Some c →
  merge_cells k cur vals !! i =
    Some (if decide (k ≤ i) then append_cell c (default [] (vals !! (i - k)))
          else c).
Proof.
  induction vals as [|v vals IH]; intros k cur i c Hc; simpl.
  - rewrite Hc. by destruct (decide _).
  - destruct (decide (i = k)) as [->|Hne].
    + assert (Hk : (if truthy v
                    then match cur !! k with
                         | Some c0 => <[k:=append_cell c0 v]> cur
                         | None => cur
                         end
                    else cur) !! k = Some (append_cell c v)).
      { destruct (truthy v) eqn:Hv.
        - rewrite Hc. apply list_lookup_insert_eq. by eapply lookup_lt_Some.
        - unfold append_cell. by rewrite Hv. }
      rewrite (IH _ _ _ _ Hk).
      destruct (decide (S k ≤ k)); [lia|].
      destruct (decide (k ≤ k)); [|lia].
      by rewrite Nat.sub_diag.
    + assert (Hi : (if truthy v
                    then match cur !! k with
                         | Some c0 => <[k:=append_cell c0 v]> cur
                         | None => cur
                         end
                    else cur) !! i = Some c).
      { destruct (truthy v); [|done].
        destruct (cur !! k); [|done]. by rewrite list_lookup_insert_ne. }
      rewrite (IH _ _ _ _ Hi).
      destruct (decide (S k ≤ i)), (decide (k ≤ i)); try lia; [|done].
      replace (i - k) with (S (i - S k)) by lia. done.
Qed.

Lemma pad_to_take_length header row :
  length (take (length header) (pad_to header row)) = length header.
Proof.
  unfold pad_to. rewrite length_take, length_app, length_replicate. lia.
Qed.

Lemma pad_to_take_lookup header row idx :
  idx < length header →
  take (length header) (pad_to header row) !! idx = Some (default [] (row !! idx)).
Proof.
  intros Hidx. unfold pad_to. rewrite lookup_take_lt by done.
  destruct (row !! idx) as [v|] eqn:Hrow.
  - by rewrite (lookup_app_l_Some _ _ _ _ Hrow).
  - apply lookup_ge_None in Hrow.
    rewrite lookup_app_r by done.
    rewrite lookup_replicate_2 by lia. done.
Qed.

(** What holds of the loop state after any number of rows: [current] is unset
    only while no record has started, and it has the header's width. *)
Definition collapse_inv (header : list pystr) (st : collapse_state) : Prop :=
  (cs_current st = None → cs_closed st = [])
  ∧ (∀ cur, cs_current st = Some cur → length cur = length header).

Lemma collapse_step_inv header p st row :
  collapse_inv header st → collapse_inv header (collapse_step header p st row).
Proof.
  intros Hinv. pose proof Hinv as [Hnone Hlen]. unfold collapse_step.
  destruct (p row).
  - split; simpl; [intros [=]|]. intros cur [= <-]. apply pad_to_take_length.
  - destruct (cs_current st) as [cur|] eqn:Hcur; [|exact Hinv].
    case_bool_decide; [exact Hinv|].
    split; simpl; [intros [=]|]. intros cur' [= <-].
    rewrite merge_cells_length. by apply Hlen.
Qed.

Lemma collapse_foldl_inv header p rows : ∀ st,
  collapse_inv header st →
  collapse_inv header (foldl (collapse_step header p) st rows).
Proof.
  induction rows as [|row rows IH]; intros st Hst; simpl; [done|].
  apply IH. by apply collapse_step_inv.
Qed.

Lemma collapse_init_inv header : collapse_inv header (CollapseState [] None).
Proof. by split. Qed.

(** C6.  A row that fails the predicate, met while a record is current, leaves
    the collapsed rows as they are but for the current record (the last row):
    it keeps the header's width, a column whose cell in the continuation row is
    empty or missing keeps its text, and a column whose cell is non-empty gets
    that cell appended after one space (the joined text stripped), or takes the
    cell as it is when the record's own cell is empty. *)
Theorem collapse_continuation_row
    (is_new_row : option (list pystr → bool)) (header : list pystr)
    (pre : list (list pystr)) (row : list pystr)
    (recs : list (list pystr)) (cur : list pystr) :
  default default_is_new_row is_new_row row = false →
  collapse_table_rows (header :: pre) is_new_row = header :: recs ++ [cur] →
  ∃ cur',
    collapse_table_rows (header :: pre ++ [row]) is_new_row
      = header :: recs ++ [cur']
    ∧ length cur' = length header
    ∧ ∀ idx c, cur !! idx = Some c →
        cur' !! idx =
          Some (let value := default [] (row !! idx) in
                if truthy value
                then (if truthy c then strip (c ++ u " " ++ value) else value)
                else c).
Proof.
  intros Hrow Hpre. unfold collapse_table_rows in *.
  set (p := default default_is_new_row is_new_row) in *.
  rewrite foldl_app. simpl.
  pose proof (collapse_foldl_inv header p pre _ (collapse_init_inv header))
    as [Hnone Hlen].
  destruct (foldl (collapse_step header p) (CollapseState [] None) pre)
    as [closed current] eqn:Hst.
  unfold collapsed_rows in Hpre. simpl in *.
  injection Hpre as Hpre.
  destruct current as [cur0|]; simpl in Hpre.
  - apply app_inj_tail in Hpre as [-> ->].
    specialize (Hlen cur eq_refl).
    exists (merge_cells 0 cur (take (length header) (pad_to header row))).
    unfold collapse_step, collapsed_rows. rewrite Hrow. simpl.
    split; [|split].
    + case_bool_decide as Hnil; simpl; [|done].
      subst cur. destruct header; [|done]. done.
    + by rewrite merge_cells_length.
    + intros idx c Hc.
      rewrite (merge_cells_lookup _ _ _ _ _ Hc).
      destruct (decide (0 ≤ idx)); [|lia].
      rewrite Nat.sub_0_r, pad_to_take_lookup; [done|].
      rewrite <- Hlen. by eapply lookup_lt_Some.
  - rewrite (Hnone eq_refl) in Hpre. by destruct recs.
Qed.

(** The example of the specification, from [collapse_continuation_row]: header
    [A, B], the record [x, 1] and the continuation row [, 2] collapse to
    [A, B] and [x, 1 2]. *)
Lemma collapse_continuation_row_example :
  default_is_new_row [u ""; u "2"] = false
  ∧ collapse_table_rows [[u "A"; u "B"]; [u "x"; u "1"]] None
      = [u "A"; u "B"] :: [] ++ [[u "x"; u "1"]]
  ∧ collapse_table_rows [[u "A"; u "B"]; [u "x"; u "1"]; [u ""; u "2"]] None
      = [[u "A"; u "B"]; [u "x"; u "1 2"]].
Proof.
  assert (H1 : default default_is_new_row None [u ""; u "2"] = false)
    by reflexivity.
  assert (H2 : collapse_table_rows ([u "A"; u "B"] :: [[u "x"; u "1"]]) None
               = [u "A"; u "B"] :: [] ++ [[u "x"; u "1"]]) by reflexivity.
  split; [exact H1|]. split; [exact H2|].
  destruct (collapse_continuation_row None [u "A"; u "B"] [[u "x"; u "1"]]
              [u ""; u "2"] [] [u "x"; u "1"] H1 H2)
    as (cur' & Heq & Hlen & Hcells).
  change ([[u "A"; u "B"]; [u "x"; u "1"]; [u ""; u "2"]])
    with ([u "A"; u "B"] :: [[u "x"; u "1"]] ++ [[u ""; u "2"]]).
  rewrite Heq.
  pose proof (Hcells 0 (u "x") eq_refl) as H0.
  pose proof (Hcells 1 (u "1") eq_refl) as H1'.
  destruct cur' as [|a [|b [|]]]; try discriminate Hlen.
  vm_compute in H0, H1'.
  injection H0 as ->. injection H1' as ->. reflexivity.
Defined.

(** C10.  A first data row that fails the predicate, met before any record has
    started, is discarded: the result is that of the table without the row. *)
Theorem collapse_leading_continuation_discarded
    (is_new_row : option (list pystr → bool)) (header row : list pystr)
    (rest : list (list pystr)) :
  default default_is_new_row is_new_row row = false →
  collapse_table_rows (header :: row :: rest) is_new_row
    = collapse_table_rows (header :: rest) is_new_row.
Proof.
  intros Hrow. unfold collapse_table_rows. simpl.
  unfold collapse_step at 2. by rewrite Hrow.
Qed.

(** With the default predicate a row with an empty first cell that follows the
    header leaves only the header. *)
Lemma collapse_leading_continuation_example :
  default_is_new_row [u ""; u "orphan"] = false
  ∧ collapse_table_rows [[u "A"; u "B"]; [u ""; u "orphan"]] None
      = [[u "A"; u "B"]].
Proof.
  split; [reflexivity|].
  rewrite (collapse_leading_continuation_discarded None [u "A"; u "B"]
             [u ""; u "orphan"] [] eq_refl).
  reflexivity.
Defined.

End CollapserFacts.

(** ** The method-section segmenter *)

Module SegmenterFacts.
Import ApiDocs.

Lemma streq_true a b : streq a b = true → a = b.
Proof. unfold streq. by intros ?%bool_decide_eq_true. Qed.

Lemma method_names_length : length METHOD_NAMES = 26.
Proof. reflexivity. Qed.

Lemma method_names_nodup : NoDup METHOD_NAMES.
Proof. apply (bool_decide_unpack _). by vm_compute. Qed.

(** The number of lines equal to [v]. *)
Definition occurrences (v : pystr) (l : list pystr) : nat :=
  length (filter (λ x, x = v) l).

Lemma occurrences_cons v x l :
  occurrences v (x :: l) = (if decide (x = v) then 1 else 0) + occurrences v l.
Proof.
  unfold occurrences. rewrite filter_cons. by destruct (decide (x = v)).
Qed.

Lemma indices_from_length l : ∀ k,
  length (indices_from k l) = occurrences JVInit l.
Proof.
  induction l as [|x l IH]; intros k; [done|].
  rewrite occurrences_cons. simpl. unfold streq.
  case_bool_decide; destruct (decide (x = JVInit)); try done; simpl; by rewrite IH.
Qed.

Lemma indices_from_app l1 l2 : ∀ k,
  indices_from k (l1 ++ l2)
    = indices_from k l1 ++ indices_from (k + length l1) l2.
Proof.
  induction l1 as [|x l1 IH]; intros k; simpl.
  - by rewrite Nat.add_0_r.
  - rewrite IH. replace (S k + length l1) with (k + S (length l1)) by lia.
    by destruct (streq x JVInit).
Qed.

(** *** The names of the methods the scan produces *)

Definition scan_names (st : scan_state) : list pystr :=
  name <$> (methods st ++ option_list (current st)).

(** The methods closed so far and the current one bear the first [method_idx]
    names of [METHOD_NAMES], in order. *)
Definition scan_inv (st : scan_state) : Prop :=
  scan_names st = take (method_idx st) METHOD_NAMES.

Lemma scan_inv_mode st m :
  scan_inv st →
  scan_inv (ScanState (methods st) (current st) (method_idx st) m).
Proof. done. Qed.

Lemma outer_step_inv st line : scan_inv st → scan_inv (outer_step st line).
Proof.
  intros Hinv. unfold outer_step.
  destruct (METHOD_NAMES !! method_idx st) as [expected|] eqn:Hexp; [|done].
  destruct (streq line expected) eqn:Heq.
  - apply streq_true in Heq as ->.
    unfold scan_inv, scan_names in *. cbn [methods current method_idx].
    rewrite (take_S_r _ _ _ Hexp), <- Hinv.
    by rewrite !fmap_app.
  - destruct (current st) eqn:Hcur; [|done].
    destruct (is_label line); [|done]. rewrite <- Hcur. exact Hinv.
Qed.

Lemma close_block_inv st key block :
  scan_inv st → scan_inv (close_block st key block).
Proof.
  unfold scan_inv, scan_names, close_block.
  cbn [methods current method_idx]. intros <-.
  destruct (current st); [|done]. by rewrite !fmap_app.
Qed.

Lemma scan_step_inv st line : scan_inv st → scan_inv (scan_step st line).
Proof.
  intros Hinv. unfold scan_step. destruct (mode st) as [| |key block].
  - by apply outer_step_inv.
  - destruct (negb (truthy line)); [done|].
    destruct (_ && _).
    + unfold scan_inv, scan_names in *.
      cbn [methods current method_idx]. rewrite <- Hinv.
      destruct (current st); [|done]. by rewrite !fmap_app.
    + by apply outer_step_inv.
  - destruct (negb (truthy line)); [done|].
    destruct (is_label line); [by apply outer_step_inv, close_block_inv|].
    case_bool_decide; [by apply outer_step_inv, close_block_inv|done].
Qed.

Lemma scan_foldl_inv lines : ∀ st,
  scan_inv st → scan_inv (foldl scan_step st lines).
Proof.
  induction lines as [|l lines IH]; intros st Hst; simpl; [done|].
  by apply IH, scan_step_inv.
Qed.

(** The scan yields methods named by a prefix of [METHOD_NAMES]. *)
Lemma scan_methods_names lines :
  ∃ k, name <$> scan_methods lines = take k METHOD_NAMES.
Proof.
  unfold scan_methods.
  set (st := foldl scan_step _ lines).
  assert (Hinv : scan_inv st) by (by apply scan_foldl_inv).
  exists (method_idx st). unfold scan_finish.
  destruct (mode st) as [| |key block]; try exact Hinv.
  by apply (close_block_inv st key block).
Qed.

Lemma segment_methods_scan merged ms :
  segment_methods merged = Ok ms → ∃ lines, ms = scan_methods lines.
Proof.
  unfold segment_methods.
  destruct (indices_from 0 merged) as [|? [|second ?]]; try done.
  intros [= <-]. by eexists.
Qed.

Lemma segment_methods_names merged ms :
  segment_methods merged = Ok ms → ∃ k, name <$> ms = take k METHOD_NAMES.
Proof.
  intros [lines ->]%segment_methods_scan. apply scan_methods_names.
Qed.

(** C7.  The detail section starts at the second line equal to [JVInit]: with
    fewer than two such lines the segmenter raises, and otherwise its result
    is the scan of the lines from the second one on, whatever the lines before
    it are. *)
Theorem segment_anchor_second_occurrence (merged : list pystr) :
  (occurrences JVInit merged < 2 →
   segment_methods merged
     = Raise (u "Unable to locate method detail section."))
  ∧ (∀ pre rest,
       merged = pre ++ JVInit :: rest → occurrences JVInit pre = 1 →
       segment_methods merged = Ok (scan_methods (JVInit :: rest))
       ∧ ∀ pre', occurrences JVInit pre' = 1 →
           segment_methods (pre' ++ JVInit :: rest) = segment_methods merged).
Proof.
  assert (Hanchor : ∀ pre rest, occurrences JVInit pre = 1 →
            segment_methods (pre ++ JVInit :: rest)
              = Ok (scan_methods (JVInit :: rest))).
  { intros pre rest Hocc. unfold segment_methods.
    rewrite indices_from_app.
    pose proof (indices_from_length pre 0) as Hlen. rewrite Hocc in Hlen.
    destruct (indices_from 0 pre) as [|i0 [|]]; try discriminate Hlen.
    change (indices_from (0 + length pre) (JVInit :: rest))
      with (length pre :: indices_from (S (length pre)) rest).
    cbn [app]. by rewrite drop_app_length. }
  split.
  - intros Hocc. unfold segment_methods.
    pose proof (indices_from_length merged 0) as Hlen.
    destruct (indices_from 0 merged) as [|? [|? ?]]; try done.
    simpl in Hlen. lia.
  - intros pre rest -> Hocc. split; [by apply Hanchor|].
    intros pre' Hocc'. by rewrite !Hanchor.
Qed.

(** A table-of-contents line, the anchor and one section: the method found is
    the one of the detail section, and one [JVInit] alone raises. *)
Lemma segment_anchor_example :
  segment_methods [u "JVInit"]
    = Raise (u "Unable to locate method detail section.")
  ∧ segment_methods [u "JVInit"; u "JVOpen"; u "JVInit"; u "Initialises JV-Link."]
    = Ok [MkMethod (u "JVInit") (u "Initialises JV-Link.") []].
Proof.
  split.
  - apply (proj1 (segment_anchor_second_occurrence [u "JVInit"])).
    vm_compute. lia.
  - rewrite (proj1 (proj2 (segment_anchor_second_occurrence
               [u "JVInit"; u "JVOpen"; u "JVInit"; u "Initialises JV-Link."])
               [u "JVInit"; u "JVOpen"] [u "Initialises JV-Link."]
               eq_refl eq_refl)).
    reflexivity.
Defined.

(** C8, as the code has it.  Every method the segmenter produces is named by
    one of [METHOD_NAMES] (the names produced are a prefix of that list), and
    the list holds 26 names, all different. *)
Theorem segmenter_names_in_method_names
    (merged : list pystr) (ms : list MethodDefinition) :
  segment_methods merged = Ok ms →
  (∀ m, m ∈ ms → name m ∈ METHOD_NAMES)
  ∧ (∃ k, name <$> ms = take k METHOD_NAMES)
  ∧ length METHOD_NAMES = 26 ∧ NoDup METHOD_NAMES.
Proof.
  intros [k Hk]%segment_methods_names.
  split; [|split; [by exists k|split; [reflexivity|apply method_names_nodup]]].
  intros m Hm.
  assert (Hin : name m ∈ name <$> ms) by (by apply list_elem_of_fmap_2).
  rewrite Hk in Hin. by eapply (subseteq_take k).
Qed.

Lemma segmenter_names_example :
  segment_methods [u "JVInit"; u "JVInit"; u "JVSetUIPropertie"; u "s"]
    = Ok [MkMethod (u "JVInit") (u "JVSetUIPropertie") []]
  ∧ u "JVInit" ∈ METHOD_NAMES.
Proof.
  assert (H : segment_methods [u "JVInit"; u "JVInit"; u "JVSetUIPropertie"; u "s"]
              = Ok [MkMethod (u "JVInit") (u "JVSetUIPropertie") []])
    by reflexivity.
  split; [exact H|].
  apply (proj1 (segmenter_names_in_method_names _ _ H)
           (MkMethod (u "JVInit") (u "JVSetUIPropertie") [])).
  apply list_elem_of_singleton. reflexivity.
Defined.

(** The count the specification gives, 25, is not the count of the list:
    [METHOD_NAMES] and [method_set] hold 26 names, and a document that has them
    all yields 26 method definitions. *)
Lemma method_names_are_26 :
  length METHOD_NAMES = 26
  ∧ size method_set = 26
  ∧ match segment_methods (JVInit :: METHOD_NAMES) with
    | Ok ms => length (remove_dups (name <$> ms))
    | Raise _ => 0
    end = 26.
Proof. split; [reflexivity|]. split; by vm_compute. Qed.

End SegmenterFacts.

(** ** The method grouper *)

Module GrouperFacts.
Import ApiDocs SegmenterFacts.
#[local] Set Warnings "-clear-no-such-hyp".

(** The position of a name in [METHOD_NAMES]. *)
Definition declared_index (n : pystr) : option nat :=
  fst <$> list_find (λ x, x = n) METHOD_NAMES.

(** The position of a group: that of its first (primary) member. *)
Definition primary_position (g : MethodGroup) : option nat :=
  e ← head (group_methods g); declared_index (entry_name e).

(** The order the specification states: the groups stand by increasing
    position of their primary member in [METHOD_NAMES]. *)
Definition in_declared_order (gs : list MethodGroup) : bool :=
  bool_decide (Sorted lt (omap primary_position gs)).

Section Grouper.
Variable set_order : list pystr → list pystr.

(** The group of one pair, when both members are known. *)
Definition pair_group (lookup : gmap pystr MethodDefinition)
    (pair : pystr * pystr) : option MethodGroup :=
  p ← lookup !! pair.1; s ← lookup !! pair.2;
  Some (MkGroup (pair.1 ++ u " / " ++ pair.2)
          [ MkEntry pair.1 (str_or (summary p) (u "See shared details below."));
            MkEntry pair.2 (str_or (summary s) (u "See shared details below.")) ]
          (merged_sections set_order (sections p) (sections s))).

(** The singleton group of one name, when it is known and in no pair. *)
Definition single_group (lookup : gmap pystr MethodDefinition)
    (grouped_names : gset pystr) (nm : pystr) : option MethodGroup :=
  if bool_decide (nm ∈ grouped_names) then None
  else info ← lookup !! nm;
       Some (MkGroup nm [MkEntry nm (str_or (summary info) (u "See details below."))]
                     (sections info)).

Definition both_known (lookup : gmap pystr MethodDefinition)
    (pair : pystr * pystr) : Prop :=
  is_Some (lookup !! pair.1) ∧ is_Some (lookup !! pair.2).

Lemma pair_group_known lookup pair :
  both_known lookup pair → is_Some (pair_group lookup pair).
Proof.
  intros [[p Hp] [s Hs]]. unfold pair_group. rewrite Hp, Hs. by eexists.
Qed.

Lemma pair_group_unknown lookup pair :
  ¬ both_known lookup pair → pair_group lookup pair = None.
Proof.
  intros Hn. unfold pair_group, both_known in *.
  destruct (lookup !! pair.1); [|done].
  destruct (lookup !! pair.2); [|done].
  destruct Hn. split; by eexists.
Qed.

Lemma group_pair_step lookup st pair :
  group_pair set_order lookup st pair
    = (st.1 ++ option_list (pair_group lookup pair),
       list_to_set (if decide (both_known lookup pair)
                    then [pair.1; pair.2] else []) ∪ st.2).
Proof.
  destruct pair as [p s], st as [gs names].
  unfold group_pair, pair_group, both_known. cbn [fst snd].
  destruct (decide _) as [[[mp Hp] [m_s Hs]]|Hn].
  - rewrite Hp, Hs. cbn. f_equal. set_solver.
  - destruct (lookup !! p) as [mp|] eqn:Hp; cbn.
    + destruct (lookup !! s) as [m_s|] eqn:Hs; cbn.
      * destruct Hn. split; by eexists.
      * rewrite app_nil_r. f_equal. set_solver.
    + rewrite app_nil_r. f_equal. set_solver.
Qed.

Lemma group_pair_foldl lookup pairs : ∀ st,
  foldl (group_pair set_order lookup) st pairs
    = (st.1 ++ omap (pair_group lookup) pairs,
       list_to_set (filter (both_known lookup) pairs ≫= λ ps, [ps.1; ps.2])
         ∪ st.2).
Proof.
  induction pairs as [|pair pairs IH]; intros st; cbn [foldl].
  - cbn. rewrite app_nil_r. destruct st. f_equal. set_solver.
  - rewrite IH, group_pair_step. cbn [fst snd omap list_omap].
    rewrite filter_cons.
    destruct (decide (both_known lookup pair)) as [Hk|Hn].
    + destruct (pair_group_known _ _ Hk) as [g Hg]. rewrite Hg.
      cbn. rewrite <- app_assoc. f_equal. set_solver.
    + rewrite (pair_group_unknown _ _ Hn). cbn. rewrite app_nil_r.
      f_equal. set_solver.
Qed.

Lemma group_single_foldl lookup names nms : ∀ acc,
  foldl (group_single lookup names) acc nms
    = acc ++ omap (single_group lookup names) nms.
Proof.
  induction nms as [|n nms IH]; intros acc; simpl.
  - by rewrite app_nil_r.
  - rewrite IH. unfold group_single, single_group.
    case_bool_decide; simpl; [done|].
    destruct (lookup !! n); simpl; [|done]. by rewrite <- app_assoc.
Qed.

Lemma group_related_split ms :
  let lookup := method_lookup ms in
  let grouped := filter (both_known lookup) grouping ≫= λ ps, [ps.1; ps.2] in
  group_related set_order ms
    = omap (pair_group lookup) grouping
      ++ omap (single_group lookup (list_to_set grouped)) METHOD_NAMES.
Proof.
  intros lookup grouped. unfold group_related. fold lookup.
  rewrite group_pair_foldl. cbn [fst snd app].
  rewrite group_single_foldl. by rewrite (right_id_L ∅ (∪)).
Qed.

End Grouper.

Lemma method_lookup_snoc ms m :
  method_lookup (ms ++ [m]) = <[name m := m]> (method_lookup ms).
Proof. unfold method_lookup. by rewrite foldl_app. Qed.

(** A name is a key of [method_lookup] exactly when a method bears it. *)
Lemma method_lookup_is_Some ms n :
  is_Some (method_lookup ms !! n) ↔ n ∈ name <$> ms.
Proof.
  induction ms as [|m ms IH] using rev_ind.
  - unfold method_lookup. simpl. rewrite lookup_empty.
    split; [by intros [? [=]]|by intros ?%elem_of_nil].
  - rewrite method_lookup_snoc, fmap_app, elem_of_app. simpl.
    rewrite list_elem_of_singleton.
    destruct (decide (name m = n)) as [->|Hne].
    + rewrite lookup_insert_eq. split; eauto.
    + rewrite lookup_insert_ne by done. rewrite IH. naive_solver.
Qed.

Lemma pair_titles (set_order : list pystr → list pystr)
    (lookup : gmap pystr MethodDefinition)
    (pairs : list (pystr * pystr)) :
  title <$> omap (pair_group set_order lookup) pairs
    = (λ ps, ps.1 ++ u " / " ++ ps.2) <$> filter (both_known lookup) pairs.
Proof.
  induction pairs as [|pair pairs IH]; [done|].
  rewrite filter_cons. cbn [omap list_omap].
  destruct (decide (both_known lookup pair)) as [[[mp Hp] [m_s Hs]]|Hn].
  - unfold pair_group at 1. rewrite Hp, Hs. cbn. by rewrite <- IH.
  - by rewrite (pair_group_unknown _ _ _ Hn).
Qed.

Lemma pair_members (set_order : list pystr → list pystr)
    (lookup : gmap pystr MethodDefinition)
    (pairs : list (pystr * pystr)) :
  (λ g, entry_name <$> group_methods g) <$> omap (pair_group set_order lookup) pairs
    = (λ ps, [ps.1; ps.2]) <$> filter (both_known lookup) pairs.
Proof.
  induction pairs as [|pair pairs IH]; [done|].
  rewrite filter_cons. cbn [omap list_omap].
  destruct (decide (both_known lookup pair)) as [[[mp Hp] [m_s Hs]]|Hn].
  - unfold pair_group at 1. rewrite Hp, Hs. cbn. by rewrite <- IH.
  - by rewrite (pair_group_unknown _ _ _ Hn).
Qed.

Lemma single_titles (lookup : gmap pystr MethodDefinition)
    (names : gset pystr) (nms : list pystr) :
  title <$> omap (single_group lookup names) nms
    = filter (λ n, (n ∉ names) ∧ is_Some (lookup !! n)) nms.
Proof.
  induction nms as [|n nms IH]; [done|].
  rewrite filter_cons. cbn [omap list_omap]. unfold single_group at 1.
  case_bool_decide as Hin.
  - rewrite decide_False by naive_solver. exact IH.
  - destruct (lookup !! n) as [info|] eqn:Hn.
    + rewrite decide_True by (split; [done|by eexists]).
      cbn [mbind option_bind fmap list_fmap title]. by rewrite <- IH.
    + rewrite decide_False by (by intros [_ [? [=]]]). exact IH.
Qed.

Lemma single_members (lookup : gmap pystr MethodDefinition)
    (names : gset pystr) (nms : list pystr) :
  Forall (λ g, entry_name <$> group_methods g = [title g])
         (omap (single_group lookup names) nms).
Proof.
  induction nms as [|n nms IH]; simpl; [constructor|].
  unfold single_group at 1. case_bool_decide; simpl; [done|].
  destruct (lookup !! n); simpl; [|done]. by constructor.
Qed.

Lemma filter_ext_in (P1 P2 : pystr → Prop)
    `{!∀ x, Decision (P1 x), !∀ x, Decision (P2 x)} (l : list pystr) :
  (∀ x, x ∈ l → P1 x ↔ P2 x) → filter P1 l = filter P2 l.
Proof.
  induction l as [|a l IH]; intros Hiff; [done|].
  rewrite !filter_cons.
  rewrite IH by (intros x Hx; apply Hiff; by right).
  destruct (decide (P1 a)) as [H1|H1], (decide (P2 a)) as [H2|H2]; try done.
  - destruct H2. apply Hiff; [left|done].
  - destruct H1. apply Hiff; [left|done].
Qed.

(** In a list without repetition, the members of a prefix that satisfy [P],
    taken in the order of the list, are the prefix filtered. *)
Lemma filter_members_app (P : pystr → Prop) `{!∀ x, Decision (P x)}
    (l1 l2 : list pystr) :
  NoDup (l1 ++ l2) →
  filter (λ n, P n ∧ n ∈ l1) (l1 ++ l2) = filter P l1.
Proof.
  intros (_ & Hdisj & _)%NoDup_app.
  rewrite filter_app.
  assert (H2 : ∀ x, x ∈ l2 → (P x ∧ x ∈ l1) ↔ False).
  { intros x Hx. split; [|done]. intros [_ Hx1]. exact (Hdisj x Hx1 Hx). }
  assert (H1 : ∀ x, x ∈ l1 → (P x ∧ x ∈ l1) ↔ P x).
  { intros x Hx. split; [by intros [? _]|done]. }
  rewrite (filter_ext_in _ _ l2 H2), (filter_ext_in _ _ l1 H1).
  assert (Hnone : ∀ l' : list pystr, filter (λ _, False) l' = []).
  { induction l' as [|x l' IH]; [done|].
    rewrite filter_cons_False; [exact IH|by intros []]. }
  by rewrite Hnone, app_nil_r.
Qed.

Lemma filter_prefix_members (P : pystr → Prop) `{!∀ x, Decision (P x)}
    (l : list pystr) (k : nat) :
  NoDup l →
  filter (λ n, P n ∧ n ∈ take k l) l = filter P (take k l).
Proof.
  intros Hnd. rewrite <- (take_drop k l) in Hnd.
  pose proof (filter_members_app P _ _ Hnd) as Hsplit.
  by rewrite take_drop in Hsplit.
Qed.

(** C2, as the code has it.  The grouper emits first one group for each pair
    of [grouping] whose two members were both found, in the order of
    [grouping], titled [primary / secondary] and listing the two members; then
    one singleton group for every other method found, in the order of
    [METHOD_NAMES].  A merged pair therefore stands before the singleton
    groups, not at the place of its primary member. *)
Theorem groups_pairs_then_singles (set_order : list pystr → list pystr)
    (merged : list pystr) (ms : list MethodDefinition) :
  segment_methods merged = Ok ms →
  let known := name <$> ms in
  let emitted := filter (λ ps, ps.1 ∈ known ∧ ps.2 ∈ known) grouping in
  let grouped := emitted ≫= λ ps, [ps.1; ps.2] in
  ∃ pairs singles,
    group_related set_order ms = pairs ++ singles
    ∧ title <$> pairs = (λ ps, ps.1 ++ u " / " ++ ps.2) <$> emitted
    ∧ (λ g, entry_name <$> group_methods g) <$> pairs
        = (λ ps, [ps.1; ps.2]) <$> emitted
    ∧ title <$> singles = filter (λ n, n ∉ grouped) known
    ∧ Forall (λ g, entry_name <$> group_methods g = [title g]) singles
    ∧ title <$> singles `sublist_of` METHOD_NAMES.
Proof.
  intros [k Hk]%segment_methods_names known emitted grouped.
  set (lookup := method_lookup ms).
  assert (Hemitted : filter (both_known lookup) grouping = emitted).
  { apply list_filter_iff. intros ps. unfold both_known, lookup.
    by rewrite !method_lookup_is_Some. }
  exists (omap (pair_group set_order lookup) grouping),
         (omap (single_group lookup (list_to_set grouped)) METHOD_NAMES).
  assert (Hsingles :
    title <$> omap (single_group lookup (list_to_set grouped)) METHOD_NAMES
      = filter (λ n, n ∉ grouped) known).
  { rewrite single_titles. unfold known. rewrite Hk.
    rewrite <- (filter_prefix_members _ _ _ method_names_nodup).
    apply list_filter_iff. intros n. unfold lookup.
    rewrite method_lookup_is_Some, Hk, elem_of_list_to_set. done. }
  split; [|split; [|split; [|split; [|split]]]].
  - rewrite (group_related_split set_order ms). fold lookup.
    by rewrite Hemitted.
  - by rewrite pair_titles, Hemitted.
  - by rewrite pair_members, Hemitted.
  - exact Hsingles.
  - apply single_members.
  - rewrite Hsingles. unfold known. rewrite Hk.
    etrans; [apply sublist_filter|apply sublist_take].
Qed.

(** The lines of a document whose detail section runs from [JVInit] to
    [JVMVCheckWithType]. *)
Definition lines_through_check : list pystr :=
  u "JVInit" :: take 18 METHOD_NAMES.

Lemma groups_pairs_then_singles_example :
  (∃ ms, segment_methods lines_through_check = Ok ms
         ∧ title <$> group_related first_seen ms
           = u "JVMVCheck / JVMVCheckWithType" :: take 16 METHOD_NAMES).
Proof.
  destruct (segment_methods lines_through_check) as [ms|] eqn:Hseg;
    [|by vm_compute in Hseg].
  exists ms. split; [done|].
  destruct (groups_pairs_then_singles first_seen _ _ Hseg)
    as (pairs & singles & -> & Hp & _ & Hs & _).
  rewrite fmap_app, Hp, Hs.
  vm_compute in Hseg. injection Hseg as <-. by vm_compute.
Defined.

(** The claim as the specification states it fails on that document: the
    merged pair comes first, before [JVInit], so the groups do not stand in
    the declared order. *)
Lemma groups_not_in_declared_order :
  match parse_methods first_seen lines_through_check with
  | Ok gs => (title <$> take 2 gs, omap primary_position (take 2 gs),
              in_declared_order gs)
  | Raise _ => ([], [], true)
  end = ([u "JVMVCheck / JVMVCheckWithType"; u "JVInit"], [16; 0], false).
Proof. by vm_compute. Qed.

End GrouperFacts.

(** ** The error catalog: parsing and consolidation *)

Module CatalogFacts.
Import ErrorCatalog.
#[local] Open Scope Z_scope.

(** C1.  [normalize_code] on the two inputs of the specification: the ASCII
    minus gives [-301]; the full-width hyphen-minus U+FF0D is not among
    the glyphs the function replaces, so the sign is lost and the result is
    [301].  The glyphs it does replace, U+2212 and U+2015, give [-301]. *)
Lemma normalize_code_fullwidth_minus :
  normalize_code (u "－301") = Ok (Some 301)
  ∧ normalize_code (u "-301") = Ok (Some (-301))
  ∧ normalize_code (u "−301") = Ok (Some (-301))
  ∧ normalize_code (u "―301") = Ok (Some (-301)).
Proof. repeat split; by vm_compute. Qed.

Section Scripts.
Variables (lower upper : pystr → pystr).

(** *** Rows without a code *)

(** C4, as the code has it.  A table row whose code cell holds no integer
    appends no record: the pass ends in [continue], and [records] is what it
    would be without the row, so the notes of the entry before it are
    untouched. *)
Theorem row_without_code_skipped (line code_raw : pystr) :
  row_parts (strip line) !! 1%nat = Some code_raw →
  normalize_code code_raw = Ok None →
  parse_line lower line = Ok None
  ∧ ∀ pre post,
      parse_records lower (pre ++ line :: post)
        = parse_records lower (pre ++ post).
Proof.
  intros Hcell Hcode.
  assert (Hline : parse_line lower line = Ok None).
  { unfold parse_line. destruct (negb _); [done|].
    destruct (row_parts (strip line)) as [|m [|c [|g more]]]; try done.
    injection Hcell as ->. rewrite Hcode. by destruct (_ || _). }
  split; [done|]. intros pre post. unfold parse_records.
  rewrite !foldl_app. cbn [foldl]. f_equal.
  unfold parse_step. rewrite Hline. by destruct (foldl _ _ pre).
Qed.

(** *** The end of the parsing loop *)



(** *** The fatal error *)

Lemma consolidate_from_cons catalog r rs :
  consolidate_from upper catalog (r :: rs)
    = match consolidate_step upper catalog r with
      | Ok c => consolidate_from upper c rs
      | Raise msg => Raise msg
      end.
Proof.
  unfold consolidate_from. cbn [foldl].
  destruct (consolidate_step upper catalog r) as [c|msg]; [done|].
  induction rs as [|r' rs IH]; [done|]. exact IH.
Qed.

Lemma consolidate_from_app catalog rs1 rs2 :
  consolidate_from upper catalog (rs1 ++ rs2)
    = match consolidate_from upper catalog rs1 with
      | Ok c => consolidate_from upper c rs2
      | Raise msg => Raise msg
      end.
Proof.
  revert catalog. induction rs1 as [|r rs1 IH]; intros catalog; [done|].
  cbn [app]. rewrite !consolidate_from_cons.
  destruct (consolidate_step upper catalog r); [apply IH|done].
Qed.

Lemma consolidate_step_known catalog r :
  is_Some (CODE_MESSAGES !! rec_code r) →
  ∃ c, consolidate_step upper catalog r = Ok c.
Proof.
  intros [msg Hmsg]. unfold consolidate_step. rewrite Hmsg. by eexists.
Qed.


Lemma consolidate_from_known rs : ∀ catalog,
  Forall (λ r, is_Some (CODE_MESSAGES !! rec_code r)) rs →
  ∃ c, consolidate_from upper catalog rs = Ok c.
Proof.
  induction rs as [|r rs IH]; intros catalog Hrs; [by eexists|].
  apply Forall_cons in Hrs as [Hr Hrs].
  rewrite consolidate_from_cons.
  destruct (consolidate_step_known catalog r Hr) as [c ->]. by apply IH.
Qed.



(** *** The base of an entry *)

(** What holds of [catalog] after the records [rs]: every code met has an
    entry, and the base of an entry is that of the first record bearing its
    code. *)
Definition catalog_inv (rs : list error_record) (catalog : gmap Z entry)
  : Prop :=
  (∀ r, r ∈ rs → is_Some (catalog !! rec_code r))
  ∧ ∀ code e, catalog !! code = Some e →
      ∃ pre r post,
        rs = pre ++ r :: post
        ∧ rec_code r = code
        ∧ Forall (λ r', rec_code r' ≠ code) pre
        ∧ base_category e = rec_category r
        ∧ base_doc e = rec_documentation r
        ∧ CODE_MESSAGES !! code = Some (base_message e).

Lemma consolidate_step_inv rs catalog r catalog' :
  catalog_inv rs catalog →
  consolidate_step upper catalog r = Ok catalog' →
  catalog_inv (rs ++ [r]) catalog'.
Proof.
  intros [Hdom Hbase]. unfold consolidate_step.
  destruct (CODE_MESSAGES !! rec_code r) as [msg|] eqn:Hmsg; [|done].
  intros [= <-]. split.
  - intros r' [Hr'|Hr']%elem_of_app;
      [|apply list_elem_of_singleton in Hr' as ->].
    + destruct (decide (rec_code r = rec_code r')) as [<-|Hne].
      * rewrite lookup_insert_eq. by eexists.
      * rewrite lookup_insert_ne by done. by apply Hdom.
    + rewrite lookup_insert_eq. by eexists.
  - intros code e. destruct (decide (rec_code r = code)) as [<-|Hne].
    + rewrite lookup_insert_eq. intros [= <-].
      cbn [base_category base_message base_doc].
      destruct (catalog !! rec_code r) as [e0|] eqn:He0; cbn [default].
      * destruct (Hbase _ _ He0)
          as (pre & r0 & post & -> & Hcode & Hpre & Hcat & Hdoc & Hm).
        exists pre, r0, (post ++ [r]). rewrite <- app_assoc.
        repeat split; assumption.
      * exists rs, r, []. cbn [base_category base_message base_doc].
        repeat split; try reflexivity; try assumption.
        apply Forall_forall. intros r' Hr' Heq.
        destruct (Hdom r' Hr') as [e' He']. congruence.
    + rewrite lookup_insert_ne by done. intros He.
      destruct (Hbase _ _ He)
        as (pre & r0 & post & -> & Hcode & Hpre & Hcat & Hdoc & Hm).
      exists pre, r0, (post ++ [r]). rewrite <- app_assoc.
      repeat split; assumption.
Qed.

Lemma consolidate_inv rs : ∀ catalog,
  consolidate upper rs = Ok catalog → catalog_inv rs catalog.
Proof.
  unfold consolidate.
  induction rs as [|r rs IH] using rev_ind; intros catalog.
  - intros [= <-]. split; [by intros ? ?%elem_of_nil|].
    intros code e. by rewrite lookup_empty.
  - rewrite consolidate_from_app.
    destruct (consolidate_from upper ∅ rs) as [c|] eqn:Hc; [|done].
    rewrite consolidate_from_cons.
    destruct (consolidate_step upper c r) as [c'|] eqn:Hstep; [|done].
    intros [= <-]. eapply consolidate_step_inv; [by apply IH|done].
Qed.

(** C9.  The base category and the base documentation of an entry are those of
    the first record, in input order, that bears the entry's code (and the base
    message is the one of [CODE_MESSAGES]); the records with the same code that
    follow it do not change them. *)
Theorem base_from_first_record
    (records : list error_record) (catalog : gmap Z entry)
    (code : Z) (e : entry) :
  consolidate upper records = Ok catalog →
  catalog !! code = Some e →
  ∃ pre r post,
    records = pre ++ r :: post
    ∧ rec_code r = code
    ∧ Forall (λ r', rec_code r' ≠ code) pre
    ∧ base_category e = rec_category r
    ∧ base_doc e = rec_documentation r
    ∧ CODE_MESSAGES !! code = Some (base_message e).
Proof.
  intros Hc He. by apply (proj2 (consolidate_inv _ _ Hc)).
Qed.

End Scripts.

(** Two rows on the same entry, one row without a code after them, and a row
    with a code the table does not know. *)
Definition row_open : pystr :=
  u "| JVOpen | -1 | no matching data | continue reading |".
Definition row_no_code : pystr := u "| JVOpen | n/a | see above | retry later |".


(** The claim as the specification states it fails on these rows: the row
    without a code leaves no trace, and the notes of the entry before it are
    what they were. *)
Lemma row_without_code_not_folded :
  parse_records ascii_lower [row_open; row_no_code]
    = parse_records ascii_lower [row_open]
  ∧ match parse_records ascii_lower [row_open; row_no_code] with
    | Ok records => rec_notes <$> records
    | Raise _ => []
    end = [u "continue reading"].
Proof. split; by vm_compute. Qed.

Lemma row_without_code_skipped_example :
  row_parts (strip row_no_code) !! 1%nat = Some (u "n/a")
  ∧ normalize_code (u "n/a") = Ok None
  ∧ parse_line ascii_lower row_no_code = Ok None
  ∧ parse_records ascii_lower ([row_open] ++ row_no_code :: [])
    = parse_records ascii_lower ([row_open] ++ []).
Proof.
  assert (H1 : row_parts (strip row_no_code) !! 1%nat = Some (u "n/a"))
    by (by vm_compute).
  assert (H2 : normalize_code (u "n/a") = Ok None) by (by vm_compute).
  split; [done|]. split; [done|].
  destruct (row_without_code_skipped ascii_lower _ _ H1 H2) as [Hline Hrecs].
  split; [exact Hline|apply Hrecs].
Defined.



Definition two_records : list error_record :=
  [ MkRecord [u "JVSkip"] (-2) (u "other") (u "cancelled") (u "first")
             (u "cancelled first");
    MkRecord [u "JVCancel"] (-2) (u "state") (u "cancelled") (u "second")
             (u "cancelled second") ].

Lemma base_from_first_record_example :
  ∃ catalog e,
    consolidate ascii_upper two_records = Ok catalog
    ∧ catalog !! (-2) = Some e
    ∧ base_category e = u "other"
    ∧ base_doc e = u "cancelled first".
Proof.
  destruct (consolidate ascii_upper two_records) as [catalog|] eqn:Hc;
    [|by vm_compute in Hc].
  destruct (catalog !! (-2)) as [e|] eqn:He.
  - exists catalog, e. split; [done|]. split; [done|].
    destruct (base_from_first_record ascii_upper _ _ _ _ Hc He)
      as (pre & r & post & Heq & Hcode & Hpre & -> & -> & _).
    destruct pre as [|r1 pre].
    + by injection Heq as <- _.
    + injection Heq as <- _. apply Forall_cons in Hpre as [Hne _].
      by destruct Hne.
  - vm_compute in Hc. injection Hc as <-. by vm_compute in He.
Defined.

End CatalogFacts.

(** ** The error catalog: the overrides *)

Module OverrideFacts.
Import ErrorCatalog CatalogFacts.
#[local] Open Scope Z_scope.

Section Scripts.
Variable upper : pystr → pystr.

(** Record [r] bears [code] and names the method whose key is [M]. *)
Definition touches (code : Z) (M : pystr) (r : error_record) : Prop :=
  rec_code r = code ∧ M ∈ upper <$> rec_methods r.

#[local] Instance touches_dec code M r : Decision (touches code M r).
Proof. unfold touches. apply _. Defined.

Definition category_deviates (e : entry) (r : error_record) : Prop :=
  rec_category r ≠ base_category e.

Definition doc_deviates (e : entry) (r : error_record) : Prop :=
  rec_documentation r ≠ [] ∧ rec_documentation r ≠ base_doc e.

#[local] Instance category_deviates_dec e r : Decision (category_deviates e r).
Proof. unfold category_deviates. apply _. Defined.

#[local] Instance doc_deviates_dec e r : Decision (doc_deviates e r).
Proof. unfold doc_deviates. apply _. Defined.







Lemma filter_none {A} (P : A → Prop) `{∀ x, Decision (P x)} (l : list A) :
  (∀ x, x ∈ l → ¬ P x) → filter P l = [].
Proof.
  induction l as [|x l IH]; intros Hl; [done|].
  rewrite filter_cons_False by (apply Hl; by left).
  apply IH. intros y Hy. apply Hl. by right.
Qed.









End Scripts.

(** Two rows on code [-2] with the same category and different notes. *)
Definition row_skip : pystr := u "| JVSkip | -2 | cancelled | first note |".
Definition row_cancel : pystr := u "| JVCancel | -2 | cancelled | second note |".



End OverrideFacts.

(** * Further properties of the scripts *)

(** ** Strings *)

Module TextFacts.

Definition pipe : N := 0x7C%N.
Definition backslash : N := 0x5C%N.

(** [s.replace(old, new)] for an [old] of one code point: every occurrence is
    replaced, the other code points are kept. *)
Definition subst_char (a : N) (new : pystr) (c : N) : pystr :=
  if (a =? c)%N then new else [c].

Lemma replace_single a new s :
  replace [a] new s = concat (subst_char a new <$> s).
Proof.
  unfold replace. induction s as [|c s IH]; [done|].
  rewrite fmap_cons. cbn [concat]. rewrite <- IH.
  cbn [replace_go startswith length pred]. unfold subst_char.
  replace (startswith s []) with true by (by destruct s).
  by destruct (a =? c)%N.
Qed.

Lemma startswith_app s p : startswith (p ++ s) p = true.
Proof.
  induction p as [|a p IH]; [by destruct s|].
  cbn [app startswith]. by rewrite N.eqb_refl, IH.
Qed.

Lemma startswith_inv s p : startswith s p = true → ∃ r, s = p ++ r.
Proof.
  revert s. induction p as [|a p IH]; intros s Hs; [by exists s|].
  destruct s as [|b s]; [done|]. cbn [startswith] in Hs.
  apply andb_prop in Hs as [Hab Hs]. apply N.eqb_eq in Hab as ->.
  destruct (IH _ Hs) as [r ->]. by exists r.
Qed.

Lemma startswith_length s p : startswith s p = true → length p ≤ length s.
Proof.
  intros [r ->]%startswith_inv. rewrite length_app. lia.
Qed.

Lemma startswith_drop s p : startswith s p = true → s = p ++ drop (length p) s.
Proof.
  intros [r ->]%startswith_inv. by rewrite drop_app_length.
Qed.

(** [p in s]: [p] lies between some [a] and some [b]. *)
Lemma contains_spec s p : contains s p = true ↔ ∃ a b, s = a ++ p ++ b.
Proof.
  split.
  - induction s as [|c s IH]; cbn [contains].
    + rewrite orb_false_r. intros [r ->]%startswith_inv. by exists [], r.
    + intros [Hs|Hs]%orb_prop.
      * apply startswith_inv in Hs as [r ->]. by exists [], r.
      * destruct (IH Hs) as (a & b & ->). by exists (c :: a), b.
  - intros (a & b & ->). induction a as [|c a IH]; cbn [app].
    + destruct p as [|x p]; [by destruct b|].
      cbn [app contains]. change (x :: p ++ b) with ((x :: p) ++ b).
      by rewrite startswith_app.
    + cbn [contains]. rewrite IH. apply orb_true_r.
Qed.

Lemma contains_trans s p q :
  contains s p = true → contains p q = true → contains s q = true.
Proof.
  intros (a & b & ->)%contains_spec (c & d & ->)%contains_spec.
  apply contains_spec. exists (a ++ c), (d ++ b). by rewrite <- !app_assoc.
Qed.

(** *** [strip] *)

Lemma lstrip_head s c : head (lstrip s) = Some c → is_space c = false.
Proof.
  induction s as [|x s IH]; [done|]. cbn [lstrip].
  destruct (is_space x) eqn:Hx; [done|]. by intros [= <-].
Qed.

Lemma lstrip_fixed s :
  (∀ c, head s = Some c → is_space c = false) → lstrip s = s.
Proof.
  destruct s as [|x s]; [done|]. intros Hs. cbn [lstrip].
  by rewrite (Hs x eq_refl).
Qed.

Lemma lstrip_suffix s : lstrip s `suffix_of` s.
Proof.
  induction s as [|x s IH]; [done|]. cbn [lstrip].
  destruct (is_space x); [by apply suffix_cons_r|done].
Qed.

Lemma lstrip_last s c : last (lstrip s) = Some c → last s = Some c.
Proof.
  destruct (lstrip_suffix s) as [k Hk]. intros Hc.
  rewrite Hk, last_app. by rewrite Hc.
Qed.

Lemma rstrip_last s c : last (rstrip s) = Some c → is_space c = false.
Proof.
  unfold rstrip. rewrite last_reverse. apply lstrip_head.
Qed.

Lemma rstrip_head s c : head (rstrip s) = Some c → head s = Some c.
Proof.
  unfold rstrip. rewrite head_reverse. intros Hc%lstrip_last.
  by rewrite last_reverse in Hc.
Qed.

Lemma rstrip_fixed s :
  (∀ c, last s = Some c → is_space c = false) → rstrip s = s.
Proof.
  intros Hs. unfold rstrip. rewrite lstrip_fixed; [apply reverse_involutive|].
  intros c. rewrite head_reverse. apply Hs.
Qed.

(** A stripped text neither begins nor ends with whitespace. *)
Lemma strip_head s c : head (strip s) = Some c → is_space c = false.
Proof. unfold strip. intros Hc%rstrip_head. by eapply lstrip_head. Qed.

Lemma strip_last s c : last (strip s) = Some c → is_space c = false.
Proof. unfold strip. apply rstrip_last. Qed.

Lemma strip_fixed s :
  (∀ c, head s = Some c → is_space c = false) →
  (∀ c, last s = Some c → is_space c = false) →
  strip s = s.
Proof.
  intros Hh Hl. unfold strip. rewrite (lstrip_fixed s Hh). by apply rstrip_fixed.
Qed.

Lemma strip_idemp s : strip (strip s) = strip s.
Proof. apply strip_fixed; [apply strip_head|apply strip_last]. Qed.

Lemma strip_fixed_inv s :
  strip s = s →
  (∀ c, head s = Some c → is_space c = false)
  ∧ (∀ c, last s = Some c → is_space c = false).
Proof.
  intros Hs. split; intros c Hc; rewrite <- Hs in Hc;
    [by eapply strip_head|by eapply strip_last].
Qed.

(** Every code point of the stripped text is one of the text. *)
Lemma lstrip_elem s x : x ∈ lstrip s → x ∈ s.
Proof.
  destruct (lstrip_suffix s) as [k Hk]. intros Hx.
  rewrite Hk. apply elem_of_app. by right.
Qed.

Lemma strip_elem s x : x ∈ strip s → x ∈ s.
Proof.
  unfold strip, rstrip. intros Hx.
  apply elem_of_reverse, lstrip_elem in Hx.
  by apply elem_of_reverse, lstrip_elem in Hx.
Qed.

End TextFacts.

(** ** The error catalog: the fields of a row *)

Module FieldFacts.
Import ErrorCatalog TextFacts.

(** *** [normalize_code] *)

Lemma is_digit_value c : is_digit c = true → is_Some (digit_value c).
Proof. unfold is_digit. apply bool_decide_eq_true_1. Qed.

Lemma int_digits_from ds : ∀ acc : option Z,
  is_Some acc → Forall (λ c, is_digit c = true) ds →
  is_Some (foldl (λ acc c, a ← acc; d ← digit_value c;
                           Some (10 * a + Z.of_N d)%Z) acc ds).
Proof.
  induction ds as [|c ds IH]; intros acc Hacc Hds; [done|].
  apply Forall_cons in Hds as [Hc Hds]. cbn [foldl]. apply IH; [|done].
  destruct Hacc as [a ->]. destruct (is_digit_value c Hc) as [d ->].
  by eexists.
Qed.

Lemma int_digits_is_Some ds :
  Forall (λ c, is_digit c = true) ds → is_Some (int_digits ds).
Proof. apply int_digits_from. by eexists. Qed.

Lemma take_digits_digits s : Forall (λ c, is_digit c = true) (take_digits s).
Proof.
  induction s as [|c s IH]; cbn [take_digits]; [done|].
  destruct (is_digit c) eqn:Hc; [by constructor|done].
Qed.

Lemma take_digits_nil s :
  take_digits s = [] → ∀ c, head s = Some c → is_digit c = false.
Proof.
  destruct s as [|x s]; [done|]. cbn [take_digits].
  destruct (is_digit x) eqn:Hx; [done|]. by intros _ c [= <-].
Qed.

(** [re.search(r"-?\d+", s)] finds no match exactly on a text without a
    decimal digit. *)
Lemma search_signed_int_None s :
  search_signed_int s = None ↔ Forall (λ c, is_digit c = false) s.
Proof.
  induction s as [|c s IH]; cbn [search_signed_int]; [done|].
  destruct (is_digit c) eqn:Hc.
  - split; [done|]. intros [Hc' _]%Forall_cons. congruence.
  - assert (Htail : search_signed_int s = None
                    ↔ Forall (λ c, is_digit c = false) (c :: s)).
    { rewrite IH. split; [by constructor|by intros [_ ?]%Forall_cons]. }
    destruct (c =? minus_sign)%N; [|done].
    destruct (take_digits s) as [|d ds] eqn:Hds; [done|].
    split; [done|]. intros [_ Hs]%Forall_cons.
    destruct s as [|x s]; [done|]. cbn [take_digits] in Hds.
    apply Forall_cons in Hs as [Hx _]. by rewrite Hx in Hds.
Qed.

(** The first run of decimal digits of [s]: the digits of the leftmost match
    of [-?\d+]. *)
Fixpoint first_digit_run (s : pystr) : pystr :=
  match s with
  | [] => []
  | c :: r => if is_digit c then c :: take_digits r else first_digit_run r
  end.

Lemma filter_digits ds :
  Forall (λ c, is_digit c = true) ds →
  filter (λ c, is_digit c = true) ds = ds.
Proof.
  induction 1 as [|c ds Hc _ IH]; [done|].
  rewrite filter_cons_True by done. by rewrite IH.
Qed.

Lemma first_digit_run_take s :
  take_digits s ≠ [] → first_digit_run s = take_digits s.
Proof.
  destruct s as [|x s]; [done|]. cbn [take_digits first_digit_run].
  by destruct (is_digit x).
Qed.

(** The text the search returns is a literal [int] reads, and its digits are
    the first run of digits of the text searched. *)
Lemma search_signed_int_value s m :
  search_signed_int s = Some m →
  is_Some (int_literal m)
  ∧ filter (λ c, is_digit c = true) m = first_digit_run s.
Proof.
  induction s as [|c s IH]; cbn [search_signed_int first_digit_run]; [done|].
  destruct (is_digit c) eqn:Hc.
  - intros [= <-]. split.
    + unfold int_literal.
      destruct (c =? minus_sign)%N eqn:Hm;
        [apply N.eqb_eq in Hm as ->; by vm_compute in Hc|].
      apply int_digits_is_Some. constructor; [done|apply take_digits_digits].
    + apply filter_digits. constructor; [done|apply take_digits_digits].
  - destruct (c =? minus_sign)%N eqn:Hm; [|done].
    pose proof (take_digits_digits s) as Hds.
    pose proof (first_digit_run_take s) as Hrun.
    destruct (take_digits s) as [|d ds]; [done|].
    intros [= <-]. split.
    + unfold int_literal. rewrite Hm.
      destruct (int_digits_is_Some _ Hds) as [z ->]. by eexists.
    + rewrite filter_cons_False by (by rewrite Hc).
      rewrite Hrun by done. by apply filter_digits.
Qed.

(** [replace] of one code point by another is a map. *)
Lemma replace_char a b s :
  replace [a] [b] s = (λ c, if (a =? c)%N then b else c) <$> s.
Proof.
  rewrite replace_single. induction s as [|c s IH]; [done|].
  rewrite !fmap_cons. cbn [concat]. rewrite IH. unfold subst_char.
  by destruct (a =? c)%N.
Qed.

Lemma take_digits_replace a b s :
  is_digit a = false → is_digit b = false →
  take_digits (replace [a] [b] s) = take_digits s.
Proof.
  intros Ha Hb. rewrite replace_char.
  induction s as [|c s IH]; [done|]. rewrite fmap_cons. cbn [take_digits].
  destruct (a =? c)%N eqn:Hac.
  - apply N.eqb_eq in Hac as <-. by rewrite Ha, Hb.
  - destruct (is_digit c); [by rewrite IH|done].
Qed.

Lemma first_digit_run_replace a b s :
  is_digit a = false → is_digit b = false →
  first_digit_run (replace [a] [b] s) = first_digit_run s.
Proof.
  intros Ha Hb. induction s as [|c s IH]; [done|].
  pose proof (take_digits_replace a b s Ha Hb) as Htake.
  rewrite replace_char in IH, Htake |- *. rewrite fmap_cons.
  cbn [first_digit_run].
  destruct (a =? c)%N eqn:Hac.
  - apply N.eqb_eq in Hac as <-. by rewrite Ha, Hb.
  - destruct (is_digit c); [by rewrite Htake|done].
Qed.

Lemma replace_no_digit a b s :
  is_digit a = false → is_digit b = false →
  Forall (λ c, is_digit c = false) (replace [a] [b] s)
  ↔ Forall (λ c, is_digit c = false) s.
Proof.
  intros Ha Hb. rewrite replace_single.
  induction s as [|c s IH]; [done|].
  rewrite fmap_cons. cbn [concat]. rewrite Forall_app, IH, Forall_cons.
  unfold subst_char. destruct (a =? c)%N eqn:Hac.
  - apply N.eqb_eq in Hac as <-. rewrite Forall_singleton.
    split; intros [_ ?]; by split.
  - by rewrite Forall_singleton.
Qed.

(** [normalize_code] by cases on the digits of the text. *)
Lemma normalize_code_cases (raw : pystr) :
  (Forall (λ c, is_digit c = false) raw ∧ normalize_code raw = Ok None)
  ∨ (¬ Forall (λ c, is_digit c = false) raw
     ∧ int_max_str_digits < length (first_digit_run raw)
     ∧ normalize_code raw
       = Raise (int_limit_message (length (first_digit_run raw))))
  ∨ (¬ Forall (λ c, is_digit c = false) raw
     ∧ length (first_digit_run raw) ≤ int_max_str_digits
     ∧ ∃ n, normalize_code raw = Ok (Some n)).
Proof.
  unfold normalize_code.
  change (u "−") with [0x2212%N]. change (u "―") with [0x2015%N].
  change (u "-") with [0x2D%N].
  rewrite <- (replace_no_digit 0x2015 0x2D raw) by done.
  rewrite <- (replace_no_digit 0x2212 0x2D) by done.
  rewrite <- (first_digit_run_replace 0x2015 0x2D raw) by done.
  rewrite <- (first_digit_run_replace 0x2212 0x2D) by done.
  rewrite <- search_signed_int_None. cbv zeta.
  destruct (search_signed_int _) as [m|] eqn:Hm; [|by left].
  right. destruct (search_signed_int_value _ _ Hm) as [[z Hz] <-].
  unfold py_int. rewrite Hz. case_bool_decide as Hlen.
  - left. by repeat split.
  - right. split; [done|]. split; [lia|]. by exists z.
Qed.

(** X1.  [normalize_code] returns [None] exactly for a text without a decimal
    digit.  It raises the [ValueError] of [int] exactly when the first run of
    digits of the text has more than 4300 digits, and the message gives their
    number.  On every other text it returns an integer. *)
Theorem normalize_code_outcomes (raw : pystr) :
  (normalize_code raw = Ok None ↔ Forall (λ c, is_digit c = false) raw)
  ∧ (∀ msg, normalize_code raw = Raise msg
            ↔ int_max_str_digits < length (first_digit_run raw)
              ∧ msg = int_limit_message (length (first_digit_run raw)))
  ∧ ((∃ n, normalize_code raw = Ok (Some n))
     ↔ ¬ Forall (λ c, is_digit c = false) raw
       ∧ length (first_digit_run raw) ≤ int_max_str_digits).
Proof.
  assert (Hrun : Forall (λ c, is_digit c = false) raw →
                 length (first_digit_run raw) = 0%nat).
  { induction 1 as [|c s Hc _ IH]; [done|].
    cbn [first_digit_run]. by rewrite Hc. }
  destruct (normalize_code_cases raw)
    as [[Hnone ->]|[(Hsome & Hlen & ->)|(Hsome & Hlen & n & ->)]].
  - split; [done|]. split.
    + intros msg. split; [done|]. rewrite (Hrun Hnone).
      unfold int_max_str_digits. lia.
    + split; [by intros [n ?]|]. by intros [? _].
  - split; [done|]. split.
    + intros msg. split; [by intros [= <-]|]. by intros [_ ->].
    + split; [by intros [n ?]|]. intros [_ ?]. lia.
  - split; [done|]. split.
    + intros msg. split; [done|]. intros [? _]. lia.
    + split; [done|]. by exists n.
Qed.

(** *** [escape_markdown] *)

Lemma escape_markdown_eq text :
  escape_markdown text = concat (subst_char pipe [backslash; pipe] <$> text).
Proof. unfold escape_markdown. apply (replace_single pipe). Qed.

(** X2.  In the escaped text every [|] stands right after a backslash; the text
    grows by one code point for each [|], and a text without [|] is
    returned as it is. *)
Theorem escape_markdown_pipes (text : pystr) :
  (∀ i, escape_markdown text !! i = Some pipe →
        ∃ j, i = S j ∧ escape_markdown text !! j = Some backslash)
  ∧ length (escape_markdown text)
    = length text + length (filter (λ c, c = pipe) text)
  ∧ (pipe ∉ text → escape_markdown text = text).
Proof.
  rewrite escape_markdown_eq.
  induction text as [|c text (IH1 & IH2 & IH3)]; [by split|].
  rewrite fmap_cons. cbn [concat].
  destruct (pipe =? c)%N eqn:Hc;
    [assert (Hs : subst_char pipe [backslash; pipe] c = [backslash; pipe])
       by (unfold subst_char; by rewrite Hc)
    |assert (Hs : subst_char pipe [backslash; pipe] c = [c])
       by (unfold subst_char; by rewrite Hc)];
    rewrite !Hs; clear Hs.
  - apply N.eqb_eq in Hc as <-. split; [|split].
    + intros [|[|i]] Hi; [done|by exists 0|].
      destruct (IH1 i Hi) as (j & -> & Hj). by exists (S (S j)).
    + rewrite filter_cons_True by done. cbn [app length]. rewrite IH2. lia.
    + intros Hn. exfalso. apply Hn. by left.
  - apply N.eqb_neq in Hc. split; [|split].
    + intros [|i] Hi; [by injection Hi as ->|].
      destruct (IH1 i Hi) as (j & -> & Hj). by exists (S j).
    + rewrite filter_cons_False by done. cbn [app length]. rewrite IH2. lia.
    + intros Hn. cbn [app]. f_equal. apply IH3. intros Hin. apply Hn. by right.
Qed.

(** *** [normalize_methods] *)

(** The code points that separate two method names by themselves. *)
Definition separators : list N := [0x2C; 0x2F; 0x3001; 0xFF0C]%N.

Lemma separator_length_None c r :
  separator_length (c :: r) = None → c ∉ separators.
Proof.
  unfold separator_length, separators.
  destruct (c =? 0x2C)%N eqn:H1; [done|].
  destruct (c =? 0x2F)%N eqn:H2; [done|]. cbn [orb].
  destruct (is_space c) eqn:Hs.
  - intros _ Hin. apply N.eqb_neq in H1, H2.
    repeat (apply elem_of_cons in Hin as [->|Hin]; [by vm_compute in Hs|]).
    by apply elem_of_nil in Hin.
  - destruct (c =? 0x3001)%N eqn:H3; [done|].
    destruct (c =? 0xFF0C)%N eqn:H4; [done|].
    intros _ Hin. apply N.eqb_neq in H1, H2, H3, H4.
    repeat (apply elem_of_cons in Hin as [->|Hin]; [done|]).
    by apply elem_of_nil in Hin.
Qed.

Lemma split_methods_chars s : ∀ skip piece,
  Forall (λ c, c ∉ separators) piece →
  Forall (Forall (λ c, c ∉ separators)) (split_methods skip piece s).
Proof.
  induction s as [|c s IH]; intros skip piece Hp; cbn [split_methods].
  - by constructor.
  - destruct skip as [|k]; [|by apply IH].
    destruct (separator_length (c :: s)) as [n|] eqn:Hsep.
    + constructor; [done|]. by apply IH.
    + apply IH. apply Forall_app. split; [done|].
      apply Forall_singleton. by eapply separator_length_None.
Qed.

Lemma normalize_methods_checked (raw : pystr) :
  normalize_methods raw ≠ []
  ∧ Forall (λ p, p ≠ [] ∧ strip p = p ∧ Forall (λ c, c ∉ separators) p)
           (normalize_methods raw).
Proof.
  unfold normalize_methods.
  assert (Hall : Forall (λ p, p ≠ [] ∧ strip p = p
                              ∧ Forall (λ c, c ∉ separators) p)
                   (filter (λ p, truthy p = true)
                           (strip <$> split_methods 0 [] raw))).
  { apply Forall_forall. intros p [Hp Hin]%list_elem_of_filter.
    apply list_elem_of_fmap in Hin as (q & -> & Hq).
    split; [by destruct (strip q)|]. split; [apply strip_idemp|].
    pose proof (split_methods_chars raw 0 [] (Forall_nil_2 _)) as Hsplit.
    rewrite Forall_forall in Hsplit. specialize (Hsplit q Hq).
    rewrite Forall_forall in Hsplit. apply Forall_forall.
    intros c Hc. by apply Hsplit, strip_elem. }
  destruct (filter _ _) as [|p ps]; [|done].
  split; [done|]. apply Forall_singleton.
  split; [done|]. split; [by vm_compute|].
  apply (bool_decide_unpack _). by vm_compute.
Qed.

(** X3.  [normalize_methods] never returns an empty list: a text without a name
    gives the one name [(Unknown)].  Every name it returns is non-empty,
    neither begins nor ends with whitespace and contains no comma, slash,
    ideographic comma or full-width comma. *)
Theorem normalize_methods_names (raw : pystr) :
  normalize_methods raw ≠ []
  ∧ Forall (λ p, p ≠ [] ∧ strip p = p ∧ Forall (λ c, c ∉ separators) p)
           (normalize_methods raw)
  ∧ (Forall (λ p, strip p = []) (split_methods 0 [] raw) →
     normalize_methods raw = [u "(Unknown)"]).
Proof.
  destruct (normalize_methods_checked raw) as [Hne Hall].
  split; [done|]. split; [done|].
  intros Hempty. unfold normalize_methods.
  rewrite (OverrideFacts.filter_none (λ p, truthy p = true)); [done|].
  intros p (q & -> & Hq)%list_elem_of_fmap.
  rewrite Forall_forall in Hempty. by rewrite (Hempty q Hq).
Qed.

(** *** The records of the parsing loop *)

Section Scripts.
Variable lower : pystr → pystr.

(** The names [infer_category] can return. *)
Definition categories : list pystr := CATEGORY_KEYWORDS.*1 ++ [u "other"].

Lemma infer_category_range text : infer_category lower text ∈ categories.
Proof.
  unfold infer_category, categories.
  destruct (find _ CATEGORY_KEYWORDS) as [ck|] eqn:Hfind.
  - apply elem_of_app. left. apply list_elem_of_fmap_2.
    apply find_some in Hfind as [Hin _]. by apply list_elem_of_In.
  - apply elem_of_app. right. by apply list_elem_of_singleton.
Qed.

Lemma normalize_text_stripped raw : strip (normalize_text raw) = normalize_text raw.
Proof. unfold normalize_text. apply strip_idemp. Qed.

(** X4.  Every record the parsing loop appends comes from a line that starts with
    [|] once stripped and whose second cell holds the code; it names at least
    one method, every name non-empty and stripped; its category is one of the
    six of [CATEGORY_KEYWORDS] or ["other"]; its three texts are stripped. *)
Theorem parsed_record_well_formed (line : pystr) (r : error_record) :
  parse_line lower line = Ok (Some r) →
  startswith (strip line) (u "|") = true
  ∧ (∃ code_raw, row_parts (strip line) !! 1 = Some code_raw
                 ∧ normalize_code code_raw = Ok (Some (rec_code r)))
  ∧ rec_methods r ≠ []
  ∧ Forall (λ p, p ≠ [] ∧ strip p = p) (rec_methods r)
  ∧ rec_category r ∈ categories
  ∧ strip (rec_meaning r) = rec_meaning r
  ∧ strip (rec_notes r) = rec_notes r
  ∧ strip (rec_documentation r) = rec_documentation r.
Proof.
  unfold parse_line.
  destruct (startswith (strip line) (u "|")) eqn:Hbar; cbn [negb]; [|done].
  destruct (row_parts (strip line)) as [|m [|c [|g more]]]; try done.
  destruct (_ || _); [done|].
  destruct (normalize_code c) as [[code|]|] eqn:Hcode; try done.
  intros [= <-]. cbn [rec_methods rec_code rec_category rec_meaning rec_notes
                      rec_documentation].
  destruct (normalize_methods_checked m) as [Hne Hall].
  split; [done|]. split; [by exists c|]. split; [done|].
  split; [|split; [apply infer_category_range|]].
  - eapply Forall_impl; [exact Hall|]. by intros p (? & ? & _).
  - split; [apply normalize_text_stripped|].
    split; [apply normalize_text_stripped|].
    unfold normalize_doc. apply normalize_text_stripped.
Qed.

End Scripts.

Lemma parsed_record_example :
  ∃ r,
    parse_line ascii_lower (u "| JVOpen, JVRead | -1 | no data | spec key |")
      = Ok (Some r)
    ∧ rec_methods r = [u "JVOpen"; u "JVRead"]
    ∧ rec_code r = (-1)%Z
    ∧ rec_category r ∈ categories.
Proof.
  destruct (parse_line ascii_lower
              (u "| JVOpen, JVRead | -1 | no data | spec key |"))
    as [[r|]|] eqn:Hr; [|by vm_compute in Hr|by vm_compute in Hr].
  exists r. split; [done|].
  pose proof (parsed_record_well_formed ascii_lower _ _ Hr)
    as (_ & _ & _ & _ & Hcat & _).
  vm_compute in Hr. injection Hr as <-. by repeat split.
Defined.

End FieldFacts.

(** ** The error catalog: what is emitted *)

Module EmissionFacts.
Import ErrorCatalog CatalogFacts.
#[local] Open Scope Z_scope.

(** *** The orders of [sorted] *)

Lemma str_leb_total a : ∀ b, str_leb a b = true ∨ str_leb b a = true.
Proof.
  induction a as [|x a IH]; intros [|y b]; cbn [str_leb]; auto.
  destruct (N.ltb_spec x y), (N.ltb_spec y x); auto; lia.
Qed.

Lemma str_leb_trans a : ∀ b c,
  str_leb a b = true → str_leb b c = true → str_leb a c = true.
Proof.
  induction a as [|x a IH]; intros [|y b] [|z c]; cbn [str_leb]; try done.
  destruct (N.ltb_spec x y), (N.ltb_spec y x), (N.ltb_spec y z),
           (N.ltb_spec z y), (N.ltb_spec x z), (N.ltb_spec z x);
    try done; try lia.
  apply IH.
Qed.

#[local] Instance str_le_total : Total str_le.
Proof. intros a b. apply str_leb_total. Qed.

#[local] Instance str_le_trans : Transitive str_le.
Proof. intros a b c. apply str_leb_trans. Qed.

#[local] Instance by_code_total {A} : Total (@by_code A).
Proof. intros p q. unfold by_code. lia. Qed.

#[local] Instance by_code_trans {A} : Transitive (@by_code A).
Proof. intros p q r. unfold by_code. lia. Qed.

(** Sorted by key, and no key twice: the keys increase strictly. *)
Lemma sorted_keys_increase {A} (l : list (Z * A)) :
  StronglySorted by_code l → NoDup l.*1 → StronglySorted Z.lt l.*1.
Proof.
  induction 1 as [|p l Hl IH Hp]; intros Hnd; [constructor|].
  rewrite fmap_cons in *. apply NoDup_cons in Hnd as [Hnotin Hnd].
  constructor; [by apply IH|].
  apply Forall_forall. intros k [q [-> Hq]]%list_elem_of_fmap.
  rewrite Forall_forall in Hp. specialize (Hp q Hq). unfold by_code in Hp.
  assert (p.1 ≠ q.1) by (intros Heq; apply Hnotin; rewrite Heq;
                          by apply list_elem_of_fmap_2).
  lia.
Qed.

Section Scripts.
Variables (lower upper : pystr → pystr).

(** *** The methods of an entry *)

(** What holds of the method set of every entry after the records [rs]: it
    holds the upper-cased names of the records that bear the entry's code. *)
Definition methods_inv (rs : list error_record) (catalog : gmap Z entry)
  : Prop :=
  ∀ code e, catalog !! code = Some e →
    ∀ M, M ∈ entry_methods e
         ↔ ∃ r, r ∈ rs ∧ rec_code r = code ∧ M ∈ upper <$> rec_methods r.

Lemma consolidate_step_methods rs catalog r catalog' :
  catalog_inv rs catalog → methods_inv rs catalog →
  consolidate_step upper catalog r = Ok catalog' →
  methods_inv (rs ++ [r]) catalog'.
Proof.
  intros [Hdom _] Hinv. unfold consolidate_step.
  destruct (CODE_MESSAGES !! rec_code r) as [msg|] eqn:Hmsg; [|done].
  intros [= <-] code e'. destruct (decide (rec_code r = code)) as [<-|Hne].
  - rewrite lookup_insert_eq. intros [= <-] M. cbn [entry_methods].
    rewrite elem_of_union, elem_of_list_to_set.
    destruct (catalog !! rec_code r) as [e0|] eqn:He0; cbn [default entry_methods].
    + rewrite (Hinv _ _ He0 M). split.
      * intros [(r' & Hr' & Hcode & HM)|HM].
        -- exists r'. split; [|done]. apply elem_of_app. by left.
        -- exists r. split; [|done]. apply elem_of_app. right.
           by apply list_elem_of_singleton.
      * intros (r' & [Hr'|Hr']%elem_of_app & Hcode & HM).
        -- left. by exists r'.
        -- apply list_elem_of_singleton in Hr' as ->. by right.
    + rewrite elem_of_list_to_set. split.
      * intros HM. exists r. split; [|by destruct HM].
        apply elem_of_app. right. by apply list_elem_of_singleton.
      * intros (r' & [Hr'|Hr']%elem_of_app & Hcode & HM).
        -- destruct (Hdom r' Hr') as [e' He']. congruence.
        -- apply list_elem_of_singleton in Hr' as ->. by right.
  - rewrite lookup_insert_ne by done. intros He M. rewrite (Hinv _ _ He M).
    split.
    + intros (r' & Hr' & Hcode & HM). exists r'. split; [|done].
      apply elem_of_app. by left.
    + intros (r' & [Hr'|Hr']%elem_of_app & Hcode & HM).
      * by exists r'.
      * apply list_elem_of_singleton in Hr' as ->. done.
Qed.

Lemma consolidate_methods rs : ∀ catalog,
  consolidate upper rs = Ok catalog → methods_inv rs catalog.
Proof.
  induction rs as [|r rs IH] using rev_ind; intros catalog Hc.
  - injection Hc as <-. intros code e. by rewrite lookup_empty.
  - unfold consolidate in Hc. rewrite consolidate_from_app in Hc.
    destruct (consolidate_from upper ∅ rs) as [c|] eqn:Hrs; [|done].
    rewrite consolidate_from_cons in Hc.
    destruct (consolidate_step upper c r) as [c'|] eqn:Hstep; [|done].
    injection Hc as <-.
    eapply consolidate_step_methods; [|by apply IH|done].
    by apply (consolidate_inv upper).
Qed.

(** The codes that have an entry are the codes of the records. *)
Lemma consolidate_codes rs catalog code :
  consolidate upper rs = Ok catalog →
  is_Some (catalog !! code) ↔ code ∈ rec_code <$> rs.
Proof.
  intros [Hdom Hbase]%(consolidate_inv upper). split.
  - intros [e He].
    destruct (Hbase _ _ He) as (pre & r & post & -> & <- & _).
    apply list_elem_of_fmap_2, elem_of_app. right. by left.
  - intros (r & -> & Hr)%list_elem_of_fmap. by apply Hdom.
Qed.

Lemma emit_codes (catalog : gmap Z entry) :
  Code <$> emit catalog = (merge_sort by_code (map_to_list catalog)).*1.
Proof.
  unfold emit. rewrite <- list_fmap_compose. by apply list_fmap_ext.
Qed.

Lemma elem_of_emit (catalog : gmap Z entry) info :
  info ∈ emit catalog
  ↔ ∃ code e, catalog !! code = Some e ∧ info = emit_entry code e.
Proof.
  unfold emit. rewrite list_elem_of_fmap. split.
  - intros ([code e] & -> & Hin). rewrite merge_sort_Permutation in Hin.
    apply elem_of_map_to_list in Hin. by exists code, e.
  - intros (code & e & He & ->). exists (code, e). split; [done|].
    rewrite merge_sort_Permutation. by apply elem_of_map_to_list.
Qed.

(** X5.  The emitted table has one entry for each code of the records, and the
    entries stand in strictly increasing order of their codes. *)
Theorem emitted_codes_increase
    (records : list error_record) (catalog : gmap Z entry) :
  consolidate upper records = Ok catalog →
  StronglySorted Z.lt (Code <$> emit catalog)
  ∧ ∀ code, code ∈ Code <$> emit catalog ↔ code ∈ rec_code <$> records.
Proof.
  intros Hc. rewrite emit_codes. split.
  - apply sorted_keys_increase.
    + apply (StronglySorted_merge_sort _).
    + rewrite merge_sort_Permutation. apply NoDup_fst_map_to_list.
  - intros code. rewrite <- (consolidate_codes _ _ _ Hc).
    rewrite merge_sort_Permutation, list_elem_of_fmap. split.
    + intros ([code' e] & -> & Hin). apply elem_of_map_to_list in Hin.
      by exists e.
    + intros [e He]. exists (code, e). split; [done|].
      by apply elem_of_map_to_list.
Qed.

(** X6.  The entry emitted for a code has the base message of [CODE_MESSAGES], and
    its methods are the upper-cased names of the records that bear the code,
    each once, in the order of [sorted]. *)
Theorem emitted_methods_sorted
    (records : list error_record) (catalog : gmap Z entry)
    (info : JvErrorInfo) :
  consolidate upper records = Ok catalog →
  info ∈ emit catalog →
  CODE_MESSAGES !! Code info = Some (BaseMessage info)
  ∧ StronglySorted str_le (Methods info)
  ∧ NoDup (Methods info)
  ∧ ∀ M, M ∈ Methods info
         ↔ ∃ r, r ∈ records ∧ rec_code r = Code info
                ∧ M ∈ upper <$> rec_methods r.
Proof.
  intros Hc (code & e & He & ->)%elem_of_emit.
  cbn [emit_entry Code BaseMessage Methods].
  split; [|split; [|split]].
  - destruct (consolidate_inv upper _ _ Hc) as [_ Hbase].
    by destruct (Hbase _ _ He) as (pre & r & post & _ & _ & _ & _ & _ & Hm).
  - apply (StronglySorted_merge_sort _).
  - rewrite merge_sort_Permutation. apply NoDup_elements.
  - intros M. rewrite merge_sort_Permutation, elem_of_elements.
    apply (consolidate_methods _ _ Hc _ _ He).
Qed.

(** *** The run as a whole *)

Lemma consolidate_from_ok rs : ∀ catalog catalog',
  consolidate_from upper catalog rs = Ok catalog' →
  Forall (λ r, is_Some (CODE_MESSAGES !! rec_code r)) rs.
Proof.
  induction rs as [|r rs IH]; intros catalog catalog'; [done|].
  rewrite consolidate_from_cons. unfold consolidate_step at 1.
  destruct (CODE_MESSAGES !! rec_code r) as [msg|] eqn:Hmsg; [|done].
  intros Hrs. constructor; [by rewrite Hmsg|]. by eapply IH.
Qed.

(** X7.  The run either writes both files, the generated table first and the
    rewritten specification second, or writes none and ends with an error; it
    writes them exactly when the parsing loop completes and [CODE_MESSAGES]
    has the code of every record. *)
Theorem generate_writes_both_or_none (lines : list pystr) :
  ((∃ records,
      parse_records lower lines = Ok records
      ∧ Forall (λ r, is_Some (CODE_MESSAGES !! rec_code r)) records)
   ↔ (generate lower upper lines).2 = None)
  ∧ ((generate lower upper lines).2 = None →
     ∃ records catalog,
       parse_records lower lines = Ok records
       ∧ consolidate upper records = Ok catalog
       ∧ (generate lower upper lines).1
         = [WriteTarget (emit catalog); WriteSource (sanitized_text records)])
  ∧ (is_Some (generate lower upper lines).2 →
     (generate lower upper lines).1 = []).
Proof.
  unfold generate.
  destruct (parse_records lower lines) as [records|msg] eqn:Hrecords;
    cbn [fst snd].
  - destruct (consolidate upper records) as [catalog|msg] eqn:Hc; cbn [fst snd].
    + split; [|split].
      * split; [done|]. intros _. exists records. split; [done|].
        by eapply consolidate_from_ok.
      * intros _. by exists records, catalog.
      * by intros [? ?].
    + split; [|split; [done|done]].
      split; [|done]. intros (records' & [= <-] & Hall).
      destruct (consolidate_from_known upper _ ∅ Hall) as [c Hc'].
      unfold consolidate in Hc. congruence.
  - split; [|split; [done|done]].
    split; [|done]. by intros (records & ? & _).
Qed.

End Scripts.

(** Three rows on two codes. *)
Definition three_rows : list pystr :=
  [ row_open; OverrideFacts.row_skip; OverrideFacts.row_cancel ].

Lemma emitted_codes_example :
  ∃ records catalog,
    parse_records ascii_lower three_rows = Ok records
    ∧ consolidate ascii_upper records = Ok catalog
    ∧ Code <$> emit catalog = [-2; -1]
    ∧ StronglySorted Z.lt (Code <$> emit catalog).
Proof.
  destruct (parse_records ascii_lower three_rows) as [records|] eqn:Hr;
    [|by vm_compute in Hr].
  destruct (consolidate ascii_upper records) as [catalog|] eqn:Hc.
  - exists records, catalog. split; [done|]. split; [done|].
    pose proof (proj1 (emitted_codes_increase ascii_upper _ _ Hc)) as Hsorted.
    split; [|exact Hsorted].
    vm_compute in Hr. injection Hr as <-.
    vm_compute in Hc. injection Hc as <-. by vm_compute.
  - vm_compute in Hr. injection Hr as <-. by vm_compute in Hc.
Defined.

Lemma emitted_methods_example :
  ∃ records catalog info,
    parse_records ascii_lower three_rows = Ok records
    ∧ consolidate ascii_upper records = Ok catalog
    ∧ emit catalog !! 0%nat = Some info
    ∧ Methods info = [u "JVCANCEL"; u "JVSKIP"]
    ∧ NoDup (Methods info).
Proof.
  destruct (parse_records ascii_lower three_rows) as [records|] eqn:Hr;
    [|by vm_compute in Hr].
  destruct (consolidate ascii_upper records) as [catalog|] eqn:Hc;
    [|vm_compute in Hr; injection Hr as <-; by vm_compute in Hc].
  destruct (emit catalog !! 0%nat) as [info|] eqn:Hinfo.
  - exists records, catalog, info. split; [done|]. split; [done|].
    split; [done|].
    pose proof (emitted_methods_sorted ascii_upper _ _ info Hc
                  (list_elem_of_lookup_2 _ _ _ Hinfo)) as (_ & _ & Hnd & _).
    split; [|exact Hnd].
    vm_compute in Hr. injection Hr as <-.
    vm_compute in Hc. injection Hc as <-.
    vm_compute in Hinfo. injection Hinfo as <-. by vm_compute.
  - vm_compute in Hr. injection Hr as <-.
    vm_compute in Hc. injection Hc as <-. by vm_compute in Hinfo.
Defined.

End EmissionFacts.

(** ** The API documents: collapsed tables and method sections *)

Module DocumentFacts.
Import ApiDocs TextFacts.

(** *** The shape of a collapsed table *)

(** The rows appended to [collapsed] after the header. *)
Definition records_of (st : collapse_state) : list (list pystr) :=
  cs_closed st ++ option_list (cs_current st).

Lemma collapse_step_records header p st row :
  Forall (λ r, length r = length header) (records_of st) →
  length (records_of (collapse_step header p st row))
    = length (records_of st) + (if p row then 1 else 0)
  ∧ Forall (λ r, length r = length header)
           (records_of (collapse_step header p st row)).
Proof.
  intros Hw. unfold collapse_step. destruct (p row).
  - unfold records_of in *. cbn [cs_closed cs_current option_list].
    split; [by rewrite (length_app (_ ++ _))|].
    apply Forall_app. split; [done|]. apply Forall_singleton.
    apply CollapserFacts.pad_to_take_length.
  - destruct (cs_current st) as [cur|] eqn:Hcur;
      [|split; [lia|done]].
    case_bool_decide; [split; [lia|done]|].
    unfold records_of in *. rewrite Hcur in Hw |- *.
    cbn [cs_closed cs_current option_list] in *.
    apply Forall_app in Hw as [Hclosed Hcur'].
    assert (Hc : length cur = length header) by (by inversion Hcur').
    split; [rewrite !length_app; simpl; lia|].
    apply Forall_app. split; [done|]. apply Forall_singleton.
    by rewrite CollapserFacts.merge_cells_length.
Qed.

Lemma collapse_foldl_records header p data : ∀ st,
  Forall (λ r, length r = length header) (records_of st) →
  length (records_of (foldl (collapse_step header p) st data))
    = length (records_of st) + length (filter (λ r, p r = true) data)
  ∧ Forall (λ r, length r = length header)
           (records_of (foldl (collapse_step header p) st data)).
Proof.
  induction data as [|row data IH]; intros st Hw; cbn [foldl].
  - rewrite filter_nil. cbn [length]. split; [lia|done].
  - destruct (collapse_step_records header p st row Hw) as [Hlen Hw'].
    destruct (IH _ Hw') as [Hlen' Hw'']. split; [|done].
    rewrite Hlen', Hlen. destruct (p row) eqn:Hp.
    + rewrite filter_cons_True by done. cbn [length]. lia.
    + rewrite filter_cons_False by (by rewrite Hp). lia.
Qed.

(** X8.  The collapsed table of no rows is empty.  Otherwise it is the header
    followed by one row for each data row that satisfies the predicate, and
    every such row has the header's width, whatever the widths of the data
    rows. *)
Theorem collapsed_table_shape
    (is_new_row : option (list pystr → bool)) (header : list pystr)
    (data : list (list pystr)) :
  collapse_table_rows [] is_new_row = []
  ∧ ∃ recs,
      collapse_table_rows (header :: data) is_new_row = header :: recs
      ∧ length recs
        = length (filter (λ r, default default_is_new_row is_new_row r = true)
                         data)
      ∧ Forall (λ r, length r = length header) recs.
Proof.
  split; [done|]. unfold collapse_table_rows, collapsed_rows.
  eexists. split; [reflexivity|].
  apply (collapse_foldl_records header _ data (CollapseState [] None)).
  by constructor.
Qed.

(** *** The last method *)

Definition last_name : pystr := u "JVWatchEventClose".

(** The methods the scan holds, closed or current. *)
Definition scanned (st : scan_state) : list MethodDefinition :=
  methods st ++ option_list (current st).

(** The method named last in [METHOD_NAMES] has no section, and a section is
    collected only while a method name is still expected. *)
Definition last_inv (st : scan_state) : Prop :=
  SegmenterFacts.scan_inv st
  ∧ (∀ m, m ∈ scanned st → name m = last_name → sections m = [])
  ∧ (∀ key block, mode st = InBlock key block → method_idx st < 26).

Lemma current_not_last st m :
  SegmenterFacts.scan_inv st → method_idx st < 26 → current st = Some m →
  name m ≠ last_name.
Proof.
  unfold SegmenterFacts.scan_inv, SegmenterFacts.scan_names.
  intros Hinv Hidx Hcur Hname.
  assert (Hin : name m ∈ take (method_idx st) METHOD_NAMES).
  { rewrite <- Hinv, Hcur. apply list_elem_of_fmap_2, elem_of_app. right.
    by apply list_elem_of_singleton. }
  assert (Hin' : name m ∈ take 25 METHOD_NAMES).
  { replace (method_idx st) with (method_idx st `min` 25) in Hin by lia.
    rewrite <- take_take in Hin. by eapply (subseteq_take (method_idx st)). }
  rewrite Hname in Hin'. revert Hin'.
  apply (bool_decide_unpack (last_name ∉ take 25 METHOD_NAMES)). by vm_compute.
Qed.

Lemma close_block_last st key block :
  last_inv st → method_idx st < 26 → last_inv (close_block st key block).
Proof.
  intros (Hscan & Hsec & Hmode) Hidx. split; [|split].
  - by apply SegmenterFacts.close_block_inv.
  - unfold scanned, close_block. cbn [methods current].
    intros m [Hm|Hm]%elem_of_app Hname.
    + apply Hsec; [|done]. apply elem_of_app. by left.
    + destruct (current st) as [m0|] eqn:Hcur; [|by apply elem_of_nil in Hm].
      apply list_elem_of_singleton in Hm as ->. cbn [name] in Hname.
      by destruct (current_not_last st m0 Hscan Hidx Hcur).
  - by intros key' block'.
Qed.

Lemma outer_step_last st line :
  last_inv st → mode st = Outer → last_inv (outer_step st line).
Proof.
  intros (Hscan & Hsec & Hmode) Houter.
  split; [by apply SegmenterFacts.outer_step_inv|].
  unfold outer_step.
  destruct (METHOD_NAMES !! method_idx st) as [expected|] eqn:Hexp;
    [|by split].
  assert (Hidx : method_idx st < 26)
    by (apply lookup_lt_Some in Hexp; exact Hexp).
  destruct (streq line expected).
  - split; [|done]. unfold scanned. cbn [methods current option_list].
    intros m [Hm|Hm]%elem_of_app Hname; [by apply Hsec|].
    by apply list_elem_of_singleton in Hm as ->.
  - destruct (current st) as [m0|] eqn:Hcur; [|by split].
    destruct (is_label line); [|by split].
    split; [|by intros key block _].
    unfold scanned. cbn [methods current]. rewrite <- Hcur. exact Hsec.
Qed.

Lemma scan_step_last st line : last_inv st → last_inv (scan_step st line).
Proof.
  intros Hinv. pose proof Hinv as (Hscan & Hsec & Hmode).
  unfold scan_step. destruct (mode st) as [| |key block] eqn:Hm.
  - by apply outer_step_last.
  - destruct (negb (truthy line)); [done|].
    destruct (_ && _).
    + split; [|split; [|done]].
      * pose proof (SegmenterFacts.scan_step_inv st line Hscan) as Hstep.
        unfold scan_step in Hstep. rewrite Hm in Hstep.
        destruct (negb (truthy line)) eqn:Ht in Hstep.
        -- unfold SegmenterFacts.scan_inv, SegmenterFacts.scan_names in *.
           cbn [methods current method_idx]. rewrite <- Hscan.
           destruct (current st); [|done]. by rewrite !fmap_app.
        -- unfold SegmenterFacts.scan_inv, SegmenterFacts.scan_names in *.
           cbn [methods current method_idx]. rewrite <- Hscan.
           destruct (current st); [|done]. by rewrite !fmap_app.
      * unfold scanned. cbn [methods current].
        intros m [Hin|Hin]%elem_of_app Hname.
        -- apply Hsec; [|done]. apply elem_of_app. by left.
        -- destruct (current st) as [m0|] eqn:Hcur;
             [|by apply elem_of_nil in Hin].
           apply list_elem_of_singleton in Hin as ->.
           cbn [set_summary sections name] in *. apply (Hsec m0); [|done].
           apply elem_of_app. right. rewrite Hcur.
           by apply list_elem_of_singleton.
    + by apply outer_step_last.
  - assert (Hidx : method_idx st < 26) by (by eapply Hmode).
    destruct (negb (truthy line)).
    { split; [done|]. split; [done|]. by intros key' block' _. }
    destruct (is_label line);
      [by apply outer_step_last; [apply close_block_last|]|].
    case_bool_decide;
      [by apply outer_step_last; [apply close_block_last|]|].
    split; [done|]. split; [done|]. by intros key' block' _.
Qed.

Lemma scan_foldl_last lines : ∀ st,
  last_inv st → last_inv (foldl scan_step st lines).
Proof.
  induction lines as [|l lines IH]; intros st Hst; cbn [foldl]; [done|].
  by apply IH, scan_step_last.
Qed.

Lemma scan_methods_last lines m :
  m ∈ scan_methods lines → name m = last_name → sections m = [].
Proof.
  unfold scan_methods.
  assert (Hinit : last_inv (ScanState [] None 0 Outer)).
  { split; [done|]. split; [by intros m' Hm'%elem_of_nil|done]. }
  pose proof (scan_foldl_last lines _ Hinit) as Hinv.
  set (st := foldl scan_step _ lines) in *.
  unfold scan_finish. destruct (mode st) as [| |key block] eqn:Hm.
  - apply Hinv.
  - apply Hinv.
  - assert (Hidx : method_idx st < 26)
      by (destruct Hinv as (_ & _ & Hmode); by eapply Hmode).
    apply (close_block_last st key block Hinv Hidx).
Qed.

(** X9.  The method named last in [METHOD_NAMES] never has a section: once its name
    is matched, [method_idx] equals [len(METHOD_NAMES)] and the scan stops
    after the summary, whatever follows in the document. *)
Theorem last_method_has_no_sections
    (merged : list pystr) (ms : list MethodDefinition) (m : MethodDefinition) :
  segment_methods merged = Ok ms →
  m ∈ ms → name m = u "JVWatchEventClose" → sections m = [].
Proof.
  intros [lines ->]%SegmenterFacts.segment_methods_scan.
  apply scan_methods_last.
Qed.

(** A document that names every method and gives each, the last included, a
    summary and one section. *)
Definition full_document : list pystr :=
  JVInit :: mjoin ((λ nm, [nm; u "summary"; u "【構文】"; u "text"])
                     <$> METHOD_NAMES).

Lemma last_method_example :
  ∃ ms m p,
    segment_methods full_document = Ok ms
    ∧ last ms = Some m ∧ ms !! 24 = Some p
    ∧ name m = u "JVWatchEventClose" ∧ summary m = u "summary"
    ∧ sections m = []
    ∧ sections p = [(u "構文", u "text")].
Proof.
  destruct (segment_methods full_document) as [ms|] eqn:Hms;
    [|by vm_compute in Hms].
  destruct (last ms) as [m|] eqn:Hm.
  - destruct (ms !! 24) as [p|] eqn:Hp.
    + exists ms, m, p. split; [done|]. split; [done|]. split; [done|].
      assert (Hname : name m = u "JVWatchEventClose").
      { vm_compute in Hms. injection Hms as <-.
        vm_compute in Hm. by injection Hm as <-. }
      split; [done|].
      assert (Hin : m ∈ ms).
      { apply last_Some in Hm as [l' ->]. apply elem_of_app. right.
        by apply list_elem_of_singleton. }
      split; [|split; [exact (last_method_has_no_sections _ _ _ Hms Hin Hname)|]].
      * vm_compute in Hms. injection Hms as <-.
        vm_compute in Hm. by injection Hm as <-.
      * vm_compute in Hms. injection Hms as <-.
        vm_compute in Hp. by injection Hp as <-.
    + vm_compute in Hms. injection Hms as <-. by vm_compute in Hp.
  - vm_compute in Hms. injection Hms as <-. by vm_compute in Hm.
Defined.

(** *** The fragments that are merged *)

Lemma merge_fragments_cons2 line nxt tl :
  merge_fragments (line :: nxt :: tl)
    = if in_method_set (strip (line ++ nxt)) && negb (in_method_set line)
      then strip (line ++ nxt) :: merge_fragments tl
      else line :: merge_fragments (nxt :: tl).
Proof. reflexivity. Qed.

Lemma strip_app_fixed a b :
  a ≠ [] → b ≠ [] → strip a = a → strip b = b → strip (a ++ b) = a ++ b.
Proof.
  intros Ha Hb [Hha _]%strip_fixed_inv [_ Hlb]%strip_fixed_inv.
  apply strip_fixed.
  - intros c. rewrite head_app. destruct a as [|x a]; [done|]. apply Hha.
  - intros c. rewrite last_app.
    destruct (last b) as [y|] eqn:Hy; [intros [= <-]; by apply Hlb|].
    by apply last_None in Hy.
Qed.

Lemma merge_fragments_text_le n : ∀ processed,
  length processed ≤ n →
  Forall (λ l, l ≠ [] ∧ strip l = l) processed →
  concat (merge_fragments processed) = concat processed
  ∧ length (merge_fragments processed) ≤ length processed.
Proof.
  induction n as [|n IH]; intros [|x [|y l]] Hlen Hall;
    cbn [length] in Hlen; try lia; try (by split).
  rewrite merge_fragments_cons2.
  pose proof Hall as Hall'.
  apply Forall_cons in Hall' as [[Hx Hsx] Hall'].
  pose proof Hall' as Hall''.
  apply Forall_cons in Hall'' as [[Hy Hsy] Hall''].
  destruct (_ && _).
  - destruct (IH l ltac:(lia) Hall'') as [Htext Hle].
    rewrite strip_app_fixed by done. cbn [concat length].
    rewrite Htext, <- app_assoc. split; [done|lia].
  - destruct (IH (y :: l) ltac:(cbn [length]; lia) Hall') as [Htext Hle].
    cbn [concat length] in *. rewrite Htext. split; [done|lia].
Qed.

(** X10.  On lines as [parse_methods] has them, non-empty and stripped, merging the
    fragments of a method name loses no text: the lines concatenate to the
    same text as before, and there are no more lines than before. *)
Theorem merge_fragments_keeps_text (processed : list pystr) :
  Forall (λ l, l ≠ [] ∧ strip l = l) processed →
  concat (merge_fragments processed) = concat processed
  ∧ length (merge_fragments processed) ≤ length processed.
Proof. by apply (merge_fragments_text_le (length processed)). Qed.

Lemma merge_fragments_example :
  merge_fragments [u "JVSetUIPropertie"; u "s"; u "JVOpen"; u "text"]
    = [u "JVSetUIProperties"; u "JVOpen"; u "text"]
  ∧ concat (merge_fragments [u "JVSetUIPropertie"; u "s"; u "JVOpen"; u "text"])
    = concat [u "JVSetUIPropertie"; u "s"; u "JVOpen"; u "text"].
Proof.
  split; [by vm_compute|].
  apply merge_fragments_keeps_text.
  repeat constructor; by vm_compute.
Defined.

End DocumentFacts.

(** ** The error catalog: sentence breaks *)

Module SentenceFacts.
Import ErrorCatalog TextFacts.

(** The sentence-ending words of the five patterns. *)
Definition sentence_ends : list pystr :=
  [u "失敗"; u "不正"; u "されている"; u "ください"; u "です"; u "ます"].

Lemma find_startswith s ends e :
  find (λ e, startswith s e) ends = Some e → length e ≤ length s.
Proof. intros [_ He]%find_some. by apply startswith_length. Qed.

(** One substitution never makes the text longer: a match writes the ending
    word and a full stop in place of the ending word and the word after it. *)
Lemma sub_sentence_break_length ends excluded starts :
  Forall (λ b, b ≠ []) starts →
  ∀ s skip,
    length (sub_sentence_break ends excluded starts skip s) ≤ length s - skip.
Proof.
  intros Hstarts. induction s as [|c r IH]; intros skip; [cbn; lia|].
  cbn [sub_sentence_break]. destruct skip as [|k].
  - assert (Hkeep : length (c :: sub_sentence_break ends excluded starts 0 r)
                    ≤ length (c :: r) - 0).
    { specialize (IH 0). cbn [length]. lia. }
    destruct (find _ ends) as [e|] eqn:He; [|done].
    destruct (_ && _); [|done].
    destruct (find _ starts) as [b|] eqn:Hb; [|done].
    pose proof (find_startswith _ _ _ He) as Hle.
    pose proof (find_startswith _ _ _ Hb) as Hlb.
    rewrite length_drop in Hlb.
    assert (Hne : length b ≠ 0).
    { apply find_some in Hb as [Hin _]. rewrite Forall_forall in Hstarts.
      apply list_elem_of_In, Hstarts in Hin. by destruct b. }
    specialize (IH (pred (length e + length b))).
    rewrite !length_app. cbn [length] in *. lia.
  - specialize (IH k). cbn [length]. lia.
Qed.

Lemma find_none_all {A} (f : A → bool) (l : list A) :
  (∀ x, x ∈ l → f x = false) → find f l = None.
Proof.
  induction l as [|x l IH]; intros Hl; [done|]. cbn [find].
  rewrite (Hl x) by (by left). apply IH. intros y Hy. apply Hl. by right.
Qed.

(** A text in which no ending word occurs is left as it is. *)
Lemma sub_sentence_break_unchanged ends excluded starts s :
  (∀ e, e ∈ ends → contains s e = false) →
  sub_sentence_break ends excluded starts 0 s = s.
Proof.
  induction s as [|c r IH]; intros Hs; [done|].
  cbn [sub_sentence_break]. rewrite find_none_all.
  - f_equal. apply IH. intros e He. specialize (Hs e He).
    cbn [contains] in Hs. by apply orb_false_elim in Hs as [_ ?].
  - intros e He. specialize (Hs e He).
    cbn [contains] in Hs. by apply orb_false_elim in Hs as [? _].
Qed.

(** X11.  [insert_sentence_breaks] never returns a longer text than it is given:
    where a pattern matches, the sentence-starting word is replaced by the
    full stop.  A text in which none of the sentence-ending words occurs is
    returned unchanged. *)
Theorem insert_sentence_breaks_bounds (text : pystr) :
  length (insert_sentence_breaks text) ≤ length text
  ∧ ((∀ e, e ∈ sentence_ends → contains text e = false) →
     insert_sentence_breaks text = text).
Proof.
  assert (Hs1 : Forall (λ b : pystr, b ≠ []) sentence_starts)
    by (apply (bool_decide_unpack _); by vm_compute).
  assert (Hs2 : Forall (λ b : pystr, b ≠ []) (sentence_starts ++ [u "データ"]))
    by (apply (bool_decide_unpack _); by vm_compute).
  split.
  - unfold insert_sentence_breaks. cbv zeta.
    pose proof (sub_sentence_break_length [u "失敗"] [] _ Hs1 text 0) as H1.
    set (r1 := sub_sentence_break [u "失敗"] _ _ 0 text) in *.
    pose proof (sub_sentence_break_length [u "不正"] [u "あるいは"] _ Hs2 r1 0)
      as H2.
    set (r2 := sub_sentence_break [u "不正"] _ _ 0 r1) in *.
    pose proof (sub_sentence_break_length [u "されている"] [] _ Hs1 r2 0) as H3.
    set (r3 := sub_sentence_break [u "されている"] _ _ 0 r2) in *.
    pose proof (sub_sentence_break_length [u "ください"] [] _ Hs1 r3 0) as H4.
    set (r4 := sub_sentence_break [u "ください"] _ _ 0 r3) in *.
    pose proof (sub_sentence_break_length [u "です"; u "ます"] [] _ Hs1 r4 0)
      as H5.
    lia.
  - intros Hnone. unfold insert_sentence_breaks. cbv zeta.
    assert (Hsub : ∀ ends excluded starts,
              ends ⊆ sentence_ends →
              sub_sentence_break ends excluded starts 0 text = text).
    { intros ends excluded starts Hends. apply sub_sentence_break_unchanged.
      intros e He. by apply Hnone, Hends. }
    rewrite !Hsub; [done|..];
      intros e He; unfold sentence_ends;
      repeat (apply elem_of_cons in He as [->|He];
                [set_solver|]); by apply elem_of_nil in He.
Qed.

End SentenceFacts.

(** * [generate_api_docs.py]: cells, titles and error-code entries *)

Module ApiTables.
Import ApiDocs TextFacts.

Definition line_feed : pystr := u (String "010" EmptyString).

(** [escape_cell] *)
Definition escape_cell (text : pystr) : pystr :=
  replace line_feed (u "<br>") (replace (u "|") (u "\|") text).

(** [trim_leading_empty]: the cells from the first non-empty one on. *)
Fixpoint trim_leading_empty (cells : list pystr) : list pystr :=
  match cells with
  | c :: rest => if truthy c then cells else trim_leading_empty rest
  | [] => []
  end.

(** The dictionary [split_record_title] returns. *)
Record record_title := MkTitle {
  number : pystr;
  title : pystr
}.

Definition letter_d : N := 0x64%N.

(** The longest prefix of code points equal to [c]. *)
Fixpoint take_run (c : N) (s : pystr) : pystr :=
  match s with
  | x :: r => if (x =? c)%N then x :: take_run c r else []
  | [] => []
  end.

(** The longest prefix without a line feed: what a greedy [.+] takes. *)
Fixpoint take_line (s : pystr) : pystr :=
  match s with
  | x :: r => if (x =? 0x0A)%N then [] else x :: take_line r
  | [] => []
  end.

(** [re.match(r"^(?P<num>\\d+)\\.(?P<title>.+)$", raw)], the groups [num] and
    [title] of the match.  The pattern is a raw literal in which every
    backslash is doubled, so it reads: a backslash, one or more letters [d]
    (the group [num]), a backslash, one code point that is no line feed, then
    one or more code points without a line feed (the group [title]), up to the
    end of the text or to a line feed that ends the text. *)
Definition match_record_title (raw : pystr) : option (pystr * pystr) :=
  match raw with
  | c0 :: r1 =>
    if (c0 =? backslash)%N then
      let ds := take_run letter_d r1 in
      match ds, drop (length ds) r1 with
      | _ :: _, c1 :: c2 :: t =>
        if (c1 =? backslash)%N && negb (c2 =? 0x0A)%N then
          let body := take_line t in
          match body, drop (length body) t with
          | _ :: _, [] => Some (c0 :: ds, body)
          | _ :: _, [_] => Some (c0 :: ds, body)
          | _, _ => None
          end
        else None
      | _, _ => None
      end
    else None
  | [] => None
  end.

(** [split_record_title] *)
Definition split_record_title (raw : pystr) : record_title :=
  match match_record_title raw with
  | Some (num, body) => MkTitle num (strip body)
  | None => MkTitle [] (strip raw)
  end.

(** [parse_special_notes] *)
Definition parse_special_notes (rows : list (list pystr)) : list pystr :=
  filter (λ text, truthy text = true)
    ((λ row, strip (join (u " ") (filter (λ cell, truthy cell = true) row)))
       <$> rows).

(** [list.index]: the first position of [x], [None] where Python raises
    [ValueError]. *)
Fixpoint index_of (x : pystr) (l : list pystr) : option nat :=
  match l with
  | [] => None
  | y :: rest => if streq y x then Some 0 else S <$> index_of x rest
  end.

(** [min(indices) if indices else d] *)
Definition min_or (d : nat) (indices : list nat) : nat :=
  match indices with
  | [] => d
  | i :: rest => foldr Nat.min i rest
  end.

(** [method_order] of [render_error_codes]; a name that is not in
    [METHOD_NAMES] has no index and is passed over. *)
Definition method_order (methods_str : pystr) : nat :=
  let methods := strip <$> split_on 0x2C methods_str in
  let indices := omap (λ m, index_of m METHOD_NAMES) methods in
  min_or (length METHOD_NAMES) indices.

(** One element of [entries] in [parse_error_codes]. *)
Record error_entry := MkErrorEntry {
  e_methods : pystr;
  e_code : pystr;
  e_meaning : pystr;
  e_notes : pystr
}.

Definition entry_key (e : error_entry) : pystr * pystr * pystr * pystr :=
  (e_methods e, e_code e, e_meaning e, e_notes e).

(** The loop that ends [parse_error_codes]: the entries whose key was not seen
    before, in order.  The state is [seen] and [unique_entries]. *)
Definition unique_step
    (st : gset (pystr * pystr * pystr * pystr) * list error_entry)
    (e : error_entry)
  : gset (pystr * pystr * pystr * pystr) * list error_entry :=
  if bool_decide (entry_key e ∈ st.1) then st
  else ({[entry_key e]} ∪ st.1, st.2 ++ [e]).

Definition unique_entries (entries : list error_entry) : list error_entry :=
  (foldl unique_step (∅, []) entries).2.

Section Normalize.

(** [normalize]: Unicode normalisation form NFKC, then [strip]; the
    normalisation is taken as given. *)
Variable normalize : pystr → pystr.

(** The segments [extract_methods_from_text] searches. *)
Definition candidates (text : pystr) : list pystr :=
  filter (λ seg, truthy seg = true)
    (strip <$> split_on 0x2F (replace (u "／") (u "/") (normalize text))).

(** The inner loop: the names of [METHOD_NAMES] that occur in [segment] and
    are not yet in [found] are appended. *)
Definition extract_step (found : list pystr) (segment : pystr) : list pystr :=
  foldl (λ found method,
           if contains segment method && negb (bool_decide (method ∈ found))
           then found ++ [method] else found)
        found METHOD_NAMES.

(** [extract_methods_from_text] *)
Definition extract_methods_from_text (text : pystr) : list pystr :=
  foldl extract_step [] (candidates text).

End Normalize.

End ApiTables.

(** ** Cells, titles and error-code entries of the API documents *)

Module TableFacts.
Import ApiDocs ApiTables TextFacts.

(** *** [escape_cell] *)

Lemma concat_fmap_concat {A B C} (f : A → list B) (g : B → list C) (s : list A) :
  concat (g <$> concat (f <$> s))
    = concat ((λ c, concat (g <$> f c)) <$> s).
Proof.
  induction s as [|c s IH]; [done|].
  rewrite !fmap_cons. cbn [concat]. by rewrite fmap_app, concat_app, IH.
Qed.

(** What [escape_cell] writes for one code point. *)
Definition escaped (c : N) : pystr :=
  if (c =? pipe)%N then [backslash; pipe]
  else if (c =? 0x0A)%N then u "<br>" else [c].

Lemma escape_cell_eq text : escape_cell text = concat (escaped <$> text).
Proof.
  unfold escape_cell.
  change line_feed with [0x0A%N]. change (u "|") with [pipe].
  rewrite !replace_single, concat_fmap_concat. f_equal.
  apply list_fmap_ext. intros _ c _. unfold subst_char, escaped.
  rewrite (N.eqb_sym pipe c).
  destruct (c =? pipe)%N eqn:Hp.
  - apply N.eqb_eq in Hp as ->. reflexivity.
  - cbn [fmap list_fmap concat]. rewrite (N.eqb_sym 0x0A c), app_nil_r.
    by destruct (c =? 0x0A)%N.
Qed.

Lemma escaped_cases c :
  (c = pipe ∧ escaped c = [backslash; pipe])
  ∨ (c ≠ pipe ∧ (pipe ∉ escaped c) ∧ (0x0A%N ∉ escaped c)
     ∧ (c ≠ 0x0A%N → escaped c = [c])).
Proof.
  unfold escaped. destruct (c =? pipe)%N eqn:Hp.
  - left. by apply N.eqb_eq in Hp.
  - right. apply N.eqb_neq in Hp. split; [done|].
    destruct (c =? 0x0A)%N eqn:Hn.
    + apply N.eqb_eq in Hn as ->.
      split; [|split; [|done]];
        apply (bool_decide_unpack _); by vm_compute.
    + apply N.eqb_neq in Hn.
      split; [|split; [|done]];
        intros Heq%list_elem_of_singleton; congruence.
Qed.

(** X12.  An escaped cell holds no line feed, and every [|] in it stands right after
    a backslash, so that the cell stays within its table row; a text without
    [|] and line feed is returned as it is. *)
Theorem escape_cell_one_line (text : pystr) :
  (0x0A%N ∉ escape_cell text)
  ∧ (∀ i, escape_cell text !! i = Some pipe →
          ∃ j, i = S j ∧ escape_cell text !! j = Some backslash)
  ∧ (pipe ∉ text → 0x0A%N ∉ text → escape_cell text = text).
Proof.
  rewrite escape_cell_eq.
  induction text as [|c text (IH1 & IH2 & IH3)].
  - split; [by intros ?%elem_of_nil|]. by split.
  - rewrite fmap_cons. cbn [concat].
    destruct (escaped_cases c) as [[-> ->]|(Hc & Hp & Hn & Hid)].
    + split; [|split].
      * intros [Hin|Hin]%elem_of_app; [|done]. revert Hin.
        apply (bool_decide_unpack (0x0A%N ∉ [backslash; pipe])). by vm_compute.
      * intros [|[|i]] Hi; [done|by exists 0|].
        destruct (IH2 i Hi) as (j & -> & Hj). by exists (S (S j)).
      * intros Hpipe. exfalso. apply Hpipe. by left.
    + split; [|split].
      * by intros [Hin|Hin]%elem_of_app.
      * intros i Hi.
        destruct (decide (i < length (escaped c))) as [Hlt|Hge].
        -- rewrite lookup_app_l in Hi by done.
           exfalso. apply Hp. by eapply list_elem_of_lookup_2.
        -- rewrite lookup_app_r in Hi by lia.
           destruct (IH2 _ Hi) as (j & Hij & Hj).
           exists (length (escaped c) + j). split; [lia|].
           rewrite lookup_app_r by lia.
           by replace (length (escaped c) + j - length (escaped c)) with j
             by lia.
      * intros Hpipe Hlf.
        rewrite Hid by (intros ->; apply Hlf; by left).
        cbn [app]. f_equal. apply IH3; intros Hin.
        -- apply Hpipe. by right.
        -- apply Hlf. by right.
Qed.

(** *** [trim_leading_empty] *)

(** X13.  [trim_leading_empty] drops the leading empty cells and nothing else: what
    it returns is a suffix of the row whose first cell, if there is one, is
    non-empty, and it is empty exactly when every cell of the row is. *)
Theorem trim_leading_empty_suffix (cells : list pystr) :
  (∃ k, trim_leading_empty cells = drop k cells
        ∧ Forall (λ c, c = []) (take k cells))
  ∧ (∀ c, head (trim_leading_empty cells) = Some c → c ≠ [])
  ∧ (trim_leading_empty cells = [] ↔ Forall (λ c, c = []) cells).
Proof.
  induction cells as [|c cells (IH1 & IH2 & IH3)].
  - split; [by exists 0|]. by split.
  - cbn [trim_leading_empty]. destruct c as [|x c]; cbn [truthy].
    + split; [|split].
      * destruct IH1 as (k & Hk & Hall). exists (S k). split; [done|].
        cbn [take]. by constructor.
      * done.
      * rewrite IH3, Forall_cons. split; [done|by intros [_ ?]].
    + split; [|split].
      * by exists 0.
      * by intros c' [= <-].
      * split; [done|]. by intros [? _]%Forall_cons.
Qed.

(** *** [split_record_title] *)

Lemma take_run_all c s : Forall (λ x, x = c) (take_run c s).
Proof.
  induction s as [|x s IH]; cbn [take_run]; [done|].
  destruct (x =? c)%N eqn:Hx; [|done].
  apply N.eqb_eq in Hx. by constructor.
Qed.

(** X14.  The pattern of [split_record_title] starts with a backslash and takes
    letters [d], not digits: a title such as [1.Name], and every text that
    does not start with a backslash, keeps its number within the title, and
    the number returned holds no decimal digit. *)
Theorem record_number_has_no_digit (raw : pystr) :
  Forall (λ c, is_digit c = false) (number (split_record_title raw))
  ∧ (head raw ≠ Some backslash →
     split_record_title raw = MkTitle [] (strip raw)).
Proof.
  unfold split_record_title, match_record_title.
  destruct raw as [|c0 r1]; [by split|].
  destruct (c0 =? backslash)%N eqn:H0.
  - apply N.eqb_eq in H0 as ->. split; [|by intros []].
    pose proof (take_run_all letter_d r1) as Hds.
    destruct (take_run letter_d r1) as [|d ds]; [done|].
    destruct (drop _ r1) as [|c1 [|c2 t]]; try done.
    destruct (_ && _); [|done].
    destruct (take_line t) as [|b body]; [done|].
    assert (Hnum : Forall (λ c, is_digit c = false) (backslash :: d :: ds)).
    { constructor; [by vm_compute|].
      eapply Forall_impl; [exact Hds|]. by intros c ->. }
    by destruct (drop _ t) as [|c3 [|c4 t']].
  - apply N.eqb_neq in H0. by split.
Qed.

(** *** [parse_special_notes] *)

(** X15.  Every paragraph of the special notes is non-empty and stripped, and there
    is at most one for each row. *)
Theorem special_notes_paragraphs (rows : list (list pystr)) :
  Forall (λ p, p ≠ [] ∧ strip p = p) (parse_special_notes rows)
  ∧ length (parse_special_notes rows) ≤ length rows.
Proof.
  unfold parse_special_notes. split.
  - apply Forall_forall. intros p [Hp Hin]%list_elem_of_filter.
    apply list_elem_of_fmap in Hin as (row & -> & _).
    split; [by destruct (strip _)|apply strip_idemp].
  - etrans; [apply length_filter|]. by rewrite length_fmap.
Qed.

(** *** [method_order] *)

Lemma index_of_Some x l i :
  index_of x l = Some i → l !! i = Some x.
Proof.
  revert i. induction l as [|y l IH]; intros i; cbn [index_of]; [done|].
  unfold streq. case_bool_decide as Hy; [by intros [= <-]; subst|].
  destruct (index_of x l) as [j|]; [|done]. intros [= <-]. by apply IH.
Qed.

Lemma index_of_first x l i j :
  index_of x l = Some i → l !! j = Some x → i ≤ j.
Proof.
  revert i j. induction l as [|y l IH]; intros i j; cbn [index_of]; [done|].
  unfold streq. case_bool_decide as Hy; [intros [= <-]; lia|].
  destruct (index_of x l) as [k|] eqn:Hk; [|done]. intros [= <-].
  destruct j as [|j]; [by intros [= ->]|].
  cbn [lookup list_lookup]. intros Hj. specialize (IH k j eq_refl Hj). lia.
Qed.

Lemma index_of_is_Some x l : x ∈ l → is_Some (index_of x l).
Proof.
  induction 1 as [x l|x y l Hin IH]; cbn [index_of]; unfold streq.
  - rewrite bool_decide_eq_true_2 by done. by eexists.
  - case_bool_decide; [by eexists|]. destruct IH as [k ->]. by eexists.
Qed.

Lemma min_or_spec d indices :
  (indices = [] ∧ min_or d indices = d)
  ∨ (min_or d indices ∈ indices ∧ ∀ j, j ∈ indices → min_or d indices ≤ j).
Proof.
  destruct indices as [|i rest]; [by left|]. right. cbn [min_or].
  induction rest as [|k rest [IHin IHle]]; cbn [foldr].
  - split; [by left|]. by intros j ->%list_elem_of_singleton.
  - split.
    + destruct (Nat.min_spec k (foldr Nat.min i rest)) as [[_ ->]|[_ ->]].
      * right. by left.
      * apply elem_of_cons in IHin as [Hi|Hi]; [rewrite Hi; by left|].
        right. by right.
    + intros j [->|[->|Hj]%elem_of_cons]%elem_of_cons.
      * specialize (IHle i (list_elem_of_here _ _)). lia.
      * lia.
      * specialize (IHle j).
        assert (foldr Nat.min i rest ≤ j) by (apply IHle; by right). lia.
Qed.

(** X16.  The sort key [method_order] is the position in [METHOD_NAMES] of the
    earliest-declared method among the comma-separated names, and
    [len(METHOD_NAMES)] when none of the names is declared, so that such
    entries sort last. *)
Theorem method_order_earliest (methods_str : pystr) :
  method_order methods_str ≤ length METHOD_NAMES
  ∧ (∀ m i, m ∈ strip <$> split_on 0x2C methods_str →
            METHOD_NAMES !! i = Some m → method_order methods_str ≤ i)
  ∧ (method_order methods_str < length METHOD_NAMES →
     ∃ m, m ∈ strip <$> split_on 0x2C methods_str
          ∧ METHOD_NAMES !! method_order methods_str = Some m)
  ∧ ((∀ m, m ∈ strip <$> split_on 0x2C methods_str → m ∉ METHOD_NAMES) →
     method_order methods_str = length METHOD_NAMES).
Proof.
  unfold method_order. cbv zeta.
  set (methods := strip <$> split_on 0x2C methods_str).
  set (indices := omap (λ m, index_of m METHOD_NAMES) methods).
  assert (Hidx : ∀ i, i ∈ indices ↔
            ∃ m, m ∈ methods ∧ index_of m METHOD_NAMES = Some i).
  { intros i. unfold indices. apply list_elem_of_omap. }
  destruct (min_or_spec (length METHOD_NAMES) indices)
    as [[Hnil Hmin]|[Hin Hle]].
  - rewrite Hmin. split; [done|]. split; [|split; [lia|done]].
    intros m i Hm Hi.
    destruct (index_of_is_Some m METHOD_NAMES) as [k Hk];
      [by eapply list_elem_of_lookup_2|].
    assert (k ∈ indices) by (apply Hidx; by exists m).
    rewrite Hnil in *. by apply elem_of_nil in H.
  - apply Hidx in Hin as Hin'. destruct Hin' as (m0 & Hm0 & Hk0).
    apply index_of_Some in Hk0 as Hlook.
    split; [apply lookup_lt_Some in Hlook; lia|].
    split; [|split].
    + intros m i Hm Hi.
      destruct (index_of_is_Some m METHOD_NAMES) as [k Hk];
        [by eapply list_elem_of_lookup_2|].
      assert (Hkin : k ∈ indices) by (apply Hidx; by exists m).
      specialize (Hle k Hkin).
      pose proof (index_of_first _ _ _ _ Hk Hi). lia.
    + intros _. by exists m0.
    + intros Hnone. exfalso. apply (Hnone m0 Hm0).
      by eapply list_elem_of_lookup_2.
Qed.

(** *** The entries without duplicates *)

#[local] Instance entry_key_inj : Inj (=) (=) entry_key.
Proof. intros [] [] [=]. by subst. Qed.

(** What holds of [seen] and [unique_entries] after the entries [done]. *)
Definition unique_inv (processed : list error_entry)
    (st : gset (pystr * pystr * pystr * pystr) * list error_entry) : Prop :=
  (∀ k, k ∈ st.1 ↔ k ∈ entry_key <$> st.2)
  ∧ NoDup st.2
  ∧ st.2 `sublist_of` processed
  ∧ ∀ e, e ∈ processed → e ∈ st.2.

Lemma unique_step_inv processed st e :
  unique_inv processed st → unique_inv (processed ++ [e]) (unique_step st e).
Proof.
  intros (Hseen & Hnd & Hsub & Hall). unfold unique_step.
  case_bool_decide as Hin.
  - split; [done|]. split; [done|]. split.
    + by apply sublist_inserts_r.
    + intros e' [He'|He']%elem_of_app; [by apply Hall|].
      apply list_elem_of_singleton in He' as ->.
      apply Hseen in Hin. by apply (list_elem_of_fmap_inj entry_key) in Hin.
  - unfold unique_inv. cbn [fst snd]. split; [|split; [|split]].
    + intros k. rewrite elem_of_union, elem_of_singleton, fmap_app,
        elem_of_app, Hseen.
      change (entry_key <$> [e]) with [entry_key e].
      rewrite list_elem_of_singleton. tauto.
    + apply NoDup_app. split; [done|]. split; [|apply NoDup_singleton].
      intros e' He' ->%list_elem_of_singleton. apply Hin, Hseen.
      by apply list_elem_of_fmap_2.
    + by apply sublist_app.
    + intros e' [He'|He']%elem_of_app; apply elem_of_app; [left; by apply Hall|].
      by right.
Qed.

Lemma unique_foldl_inv entries :
  unique_inv entries (foldl unique_step (∅, []) entries).
Proof.
  induction entries as [|e entries IH] using rev_ind.
  - split; [|split; [constructor|split; [done|by intros e ?%elem_of_nil]]].
    intros k. cbn [fst snd fmap list_fmap]. split; [by intros ?%elem_of_empty|].
    by intros ?%elem_of_nil.
  - rewrite foldl_app. cbn [foldl]. by apply unique_step_inv.
Qed.

(** X17.  The entries [parse_error_codes] returns: no entry twice, every parsed
    entry among them, and in the order in which they were parsed. *)
Theorem unique_entries_nodup (entries : list error_entry) :
  NoDup (unique_entries entries)
  ∧ (∀ e, e ∈ unique_entries entries ↔ e ∈ entries)
  ∧ unique_entries entries `sublist_of` entries.
Proof.
  destruct (unique_foldl_inv entries) as (_ & Hnd & Hsub & Hall).
  unfold unique_entries. split; [done|]. split; [|done].
  intros e. split; [|apply Hall]. intros He.
  by eapply elem_of_sublist.
Qed.

(** *** [extract_methods_from_text] *)

Section Normalize.
Variable normalize : pystr → pystr.

Lemma extract_inner segment names : ∀ found,
  NoDup found →
  NoDup (foldl (λ found method,
                  if contains segment method
                     && negb (bool_decide (method ∈ found))
                  then found ++ [method] else found) found names)
  ∧ ∀ m, m ∈ foldl (λ found method,
                      if contains segment method
                         && negb (bool_decide (method ∈ found))
                      then found ++ [method] else found) found names
         ↔ m ∈ found ∨ (m ∈ names ∧ contains segment m = true).
Proof.
  induction names as [|nm names IH]; intros found Hnd; cbn [foldl].
  - split; [done|]. intros m. split; [by left|].
    by intros [?|[?%elem_of_nil _]].
  - destruct (contains segment nm) eqn:Hc; cbn [andb].
    + case_bool_decide as Hin; cbn [negb].
      * destruct (IH found Hnd) as [Hnd' Hmem]. split; [done|].
        intros m. rewrite Hmem. split; [intros [?|[? ?]]; [by left|]|].
        -- right. split; [by right|done].
        -- intros [?|[[->|?]%elem_of_cons ?]]; [by left|by left|].
           right. by split.
      * assert (Hnd1 : NoDup (found ++ [nm])).
        { apply NoDup_app. split; [done|]. split; [|apply NoDup_singleton].
          by intros x Hx ->%list_elem_of_singleton. }
        destruct (IH _ Hnd1) as [Hnd' Hmem]. split; [done|].
        intros m. rewrite Hmem, elem_of_app, list_elem_of_singleton. split.
        -- intros [[?| ->]|[? ?]]; [by left| |].
           ++ right. split; [by left|done].
           ++ right. split; [by right|done].
        -- intros [?|[[->|?]%elem_of_cons ?]]; [left; by left|left; by right|].
           right. by split.
    + destruct (IH found Hnd) as [Hnd' Hmem]. split; [done|].
      intros m. rewrite Hmem. split.
      * intros [?|[? ?]]; [by left|]. right. split; [by right|done].
      * intros [?|[[->|?]%elem_of_cons ?]]; [by left|congruence|].
        right. by split.
Qed.

Lemma extract_outer segments : ∀ found,
  NoDup found →
  NoDup (foldl extract_step found segments)
  ∧ ∀ m, m ∈ foldl extract_step found segments
         ↔ m ∈ found
           ∨ (m ∈ METHOD_NAMES
              ∧ ∃ seg, seg ∈ segments ∧ contains seg m = true).
Proof.
  induction segments as [|seg segments IH]; intros found Hnd; cbn [foldl].
  - split; [done|]. intros m. split; [by left|].
    by intros [?|[_ (? & ?%elem_of_nil & _)]].
  - destruct (extract_inner seg METHOD_NAMES found Hnd) as [Hnd1 Hmem1].
    destruct (IH _ Hnd1) as [Hnd' Hmem]. split; [done|].
    intros m. rewrite Hmem, Hmem1. split.
    + intros [[?|[? ?]]|[? (s & ? & ?)]]; [by left| |].
      * right. split; [done|]. exists seg. split; [by left|done].
      * right. split; [done|]. exists s. split; [by right|done].
    + intros [?|[? (s & [->|?]%elem_of_cons & ?)]].
      * left. by left.
      * left. right. by split.
      * right. split; [done|]. by exists s.
Qed.

(** X18.  [extract_methods_from_text] returns, each once, the names of
    [METHOD_NAMES] that occur as a substring of one of the segments between
    slashes.  A name is therefore returned with every declared name it
    contains: a text that names [JVMVCheckWithType] also yields [JVMVCheck]. *)
Theorem extract_methods_substrings (text : pystr) :
  NoDup (extract_methods_from_text normalize text)
  ∧ (∀ m, m ∈ extract_methods_from_text normalize text
          ↔ m ∈ METHOD_NAMES
            ∧ ∃ seg, seg ∈ candidates normalize text
                     ∧ contains seg m = true)
  ∧ (∀ m m', m ∈ extract_methods_from_text normalize text →
             m' ∈ METHOD_NAMES → contains m m' = true →
             m' ∈ extract_methods_from_text normalize text)
  ∧ (u "JVMVCheckWithType" ∈ extract_methods_from_text normalize text →
     u "JVMVCheck" ∈ extract_methods_from_text normalize text).
Proof.
  unfold extract_methods_from_text.
  destruct (extract_outer (candidates normalize text) [] (NoDup_nil_2))
    as [Hnd Hmem].
  assert (Hiff : ∀ m, m ∈ foldl extract_step [] (candidates normalize text)
                      ↔ m ∈ METHOD_NAMES
                        ∧ ∃ seg, seg ∈ candidates normalize text
                                 ∧ contains seg m = true).
  { intros m. rewrite Hmem. split; [|by right].
    by intros [?%elem_of_nil|?]. }
  assert (Hsub : ∀ m m',
            m ∈ foldl extract_step [] (candidates normalize text) →
            m' ∈ METHOD_NAMES → contains m m' = true →
            m' ∈ foldl extract_step [] (candidates normalize text)).
  { intros m m' (_ & seg & Hseg & Hc)%Hiff Hm' Hc'. apply Hiff.
    split; [done|]. exists seg. split; [done|]. by eapply contains_trans. }
  split; [done|]. split; [done|]. split; [done|].
  intros Hin. apply (Hsub _ _ Hin).
  - apply (bool_decide_unpack _). by vm_compute.
  - by vm_compute.
Qed.

End Normalize.

End TableFacts.

(** * [generate_api_docs.py]: the delivery schedule *)

Module ApiSchedule.
Import ApiTables.

(** [header] of [parse_delivery_schedule] *)
Definition schedule_header : list pystr :=
  [u "名称"; u "データ種別ID"; u "曜日"; u "時間"; u "備考"; u "提供単位";
   u "提供期間"].

(** [d[key] = value] and [d.get(key)] on an insertion-ordered [dict]. *)
Fixpoint assoc_set {V} (key : pystr) (value : V) (d : list (pystr * V))
  : list (pystr * V) :=
  match d with
  | [] => [(key, value)]
  | (k, v) :: rest =>
    if streq k key then (k, value) :: rest
    else (k, v) :: assoc_set key value rest
  end.

Fixpoint assoc_get {V} (key : pystr) (d : list (pystr * V)) : option V :=
  match d with
  | [] => None
  | (k, v) :: rest => if streq k key then Some v else assoc_get key rest
  end.

(** [any(row)] *)
Definition any_cell (row : list pystr) : bool := existsb truthy row.

(** [row[i] if len(row) > i else ""] *)
Definition cell (row : list pystr) (i : nat) : pystr := default [] (row !! i).

(** The section a label row opens. *)
Definition section_label (label : pystr) : option pystr :=
  if startswith label (u "(1)") then Some (u "蓄積系データ")
  else if startswith label (u "(2)") then Some (u "速報系データ")
  else if startswith label (u "(3)") then Some (u "リアルタイム系データ")
  else None.

(** One element of [merged] (lines 590-594). *)
Definition merge_cell (prev new : pystr) : pystr :=
  if truthy new
  then (if truthy prev then strip (prev ++ line_feed ++ new) else new)
  else prev.

(** [l[-1] = x] on a non-empty list. *)
Definition set_last {A} (l : list A) (x : A) : list A := removelast l ++ [x].

Record schedule_state := ScheduleState {
  sched_sections : list (pystr * list (list pystr));
  sched_key : option pystr
}.

(** One pass of [for row in rows] (lines 559-602). *)
Definition schedule_step (st : schedule_state) (row : list pystr)
  : schedule_state :=
  if negb (any_cell row) then st
  else
    match section_label (cell row 1) with
    | Some key =>
      ScheduleState (assoc_set key [schedule_header] (sched_sections st))
                    (Some key)
    | None =>
      match sched_key st with
      | None => st
      | Some current_key =>
        let data := [cell row 1; cell row 2; cell row 3; cell row 4;
                     cell row 5; cell row 6; cell row 7] in
        match assoc_get current_key (sched_sections st) with
        | Some rows =>
          if streq (cell row 1) [] && bool_decide (1 < length rows)
          then
            let merged := zip_with merge_cell (default [] (last rows)) data in
            ScheduleState
              (assoc_set current_key (set_last rows merged) (sched_sections st))
              (Some current_key)
          else
            ScheduleState
              (assoc_set current_key (rows ++ [data]) (sched_sections st))
              (Some current_key)
        | None =>
          ScheduleState
            (assoc_set current_key [schedule_header; data] (sched_sections st))
            (Some current_key)
        end
      end
    end.

(** [parse_delivery_schedule] *)
Definition parse_delivery_schedule (rows : list (list pystr))
  : list (pystr * list (list pystr)) :=
  sched_sections (foldl schedule_step (ScheduleState [] None) rows).

End ApiSchedule.

(** ** The delivery schedule *)

Module ScheduleFacts.
Import ApiTables ApiSchedule.

Definition section_names : list pystr :=
  [u "蓄積系データ"; u "速報系データ"; u "リアルタイム系データ"].

Lemma streq_eq a b : streq a b = true → a = b.
Proof. unfold streq. by intros ?%bool_decide_eq_true. Qed.

Lemma assoc_set_keys {V} key (value : V) d :
  (assoc_set key value d).*1
    = if decide (key ∈ d.*1) then d.*1 else d.*1 ++ [key].
Proof.
  induction d as [|[k v] d IH]; cbn [assoc_set].
  - rewrite decide_False by (by intros ?%elem_of_nil). done.
  - destruct (streq k key) eqn:Hk.
    + apply streq_eq in Hk as ->. rewrite !fmap_cons. cbn [fst].
      by rewrite decide_True by (by left).
    + rewrite !fmap_cons, IH. cbn [fst].
      assert (k ≠ key) by (intros ->; unfold streq in Hk;
                           by rewrite bool_decide_eq_true_2 in Hk).
      destruct (decide (key ∈ d.*1)) as [Hin|Hin],
               (decide (key ∈ k :: d.*1)) as [Hin'|Hin']; try done.
      * exfalso. apply Hin'. by right.
      * apply elem_of_cons in Hin' as [?|?]; done.
Qed.

Lemma assoc_set_nodup {V} key (value : V) d :
  NoDup d.*1 → NoDup (assoc_set key value d).*1.
Proof.
  intros Hnd. rewrite assoc_set_keys. destruct (decide _) as [|Hn]; [done|].
  apply NoDup_app. split; [done|]. split; [|apply NoDup_singleton].
  by intros x Hx ->%list_elem_of_singleton.
Qed.

Lemma assoc_set_Forall {V} (P : pystr * V → Prop) key value d :
  Forall P d → P (key, value) → Forall P (assoc_set key value d).
Proof.
  intros Hd Hp. induction d as [|[k v] d IH]; cbn [assoc_set].
  - by constructor.
  - apply Forall_cons in Hd as [Hkv Hd].
    destruct (streq k key) eqn:Hk.
    + apply streq_eq in Hk as ->. by constructor.
    + constructor; [done|]. by apply IH.
Qed.

Lemma assoc_get_elem {V} key (d : list (pystr * V)) v :
  assoc_get key d = Some v → (key, v) ∈ d.
Proof.
  induction d as [|[k w] d IH]; cbn [assoc_get]; [done|].
  destruct (streq k key) eqn:Hk.
  - apply streq_eq in Hk as ->. intros [= ->]. by left.
  - intros Hv. right. by apply IH.
Qed.

(** A section: one of the three names, the header, then rows of seven
    cells. *)
Definition well_formed (kv : pystr * list (list pystr)) : Prop :=
  kv.1 ∈ section_names
  ∧ ∃ data, kv.2 = schedule_header :: data
            ∧ Forall (λ r, length r = 7) data.

Definition schedule_inv (st : schedule_state) : Prop :=
  NoDup (sched_sections st).*1
  ∧ Forall well_formed (sched_sections st)
  ∧ ∀ key, sched_key st = Some key → key ∈ section_names.

Lemma section_label_name label key :
  section_label label = Some key → key ∈ section_names.
Proof.
  unfold section_label, section_names.
  repeat (destruct (startswith label _);
            [intros [= <-];
             by repeat first [apply list_elem_of_here
                             |apply list_elem_of_further]|]).
  done.
Qed.

Lemma schedule_step_inv st row :
  schedule_inv st → schedule_inv (schedule_step st row).
Proof.
  intros Hinv. pose proof Hinv as (Hnd & Hwf & Hkey). unfold schedule_step.
  destruct (negb (any_cell row)); [done|].
  destruct (section_label (cell row 1)) as [key|] eqn:Hlabel.
  - apply section_label_name in Hlabel.
    split; [by apply assoc_set_nodup|]. split; [|by intros k [= <-]].
    apply assoc_set_Forall; [done|]. split; [done|]. by exists [].
  - destruct (sched_key st) as [current_key|] eqn:Hcur; [|exact Hinv].
    specialize (Hkey _ eq_refl).
    set (data := [cell row 1; cell row 2; cell row 3; cell row 4;
                  cell row 5; cell row 6; cell row 7]).
    destruct (assoc_get current_key (sched_sections st)) as [rows|] eqn:Hget.
    + apply assoc_get_elem in Hget. rewrite Forall_forall in Hwf.
      destruct (Hwf _ Hget) as (_ & prev & Hrows & Hprev).
      cbn [snd] in Hrows. rewrite <- Forall_forall in Hwf.
      destruct (_ && _) eqn:Hcond.
      * split; [by apply assoc_set_nodup|]. split; [|by intros k [= <-]].
        apply assoc_set_Forall; [done|]. split; [done|].
        apply andb_prop in Hcond as [_ Hlen%bool_decide_eq_true].
        rewrite Hrows in Hlen |- *. cbn [length] in Hlen.
        destruct prev as [|p0 prev] using rev_ind; [cbn in Hlen; lia|].
        clear IHprev. apply Forall_app in Hprev as [Hprev Hp0].
        assert (Hlen0 : length p0 = 7) by (by inversion Hp0).
        exists (prev ++ [zip_with merge_cell p0 data]). split.
        -- unfold set_last.
           change (schedule_header :: prev ++ [p0])
             with ((schedule_header :: prev) ++ [p0]).
           by rewrite removelast_last, last_snoc.
        -- apply Forall_app. split; [done|]. apply Forall_singleton.
           rewrite length_zip_with, Hlen0. reflexivity.
      * split; [by apply assoc_set_nodup|]. split; [|by intros k [= <-]].
        apply assoc_set_Forall; [done|]. split; [done|].
        exists (prev ++ [data]). split; [by rewrite Hrows|].
        apply Forall_app. split; [done|]. by apply Forall_singleton.
    + split; [by apply assoc_set_nodup|]. split; [|by intros k [= <-]].
      apply assoc_set_Forall; [done|]. split; [done|].
      exists [data]. split; [done|]. by apply Forall_singleton.
Qed.

Lemma schedule_foldl_inv rows : ∀ st,
  schedule_inv st → schedule_inv (foldl schedule_step st rows).
Proof.
  induction rows as [|row rows IH]; intros st Hst; cbn [foldl]; [done|].
  by apply IH, schedule_step_inv.
Qed.

(** X19.  Whatever the rows of the sheet, the sections of the delivery schedule are
    keyed by the three section names, each at most once; every section starts
    with the fixed header, and every row after it has exactly seven cells, the
    rows merged from continuation rows included. *)
Theorem delivery_schedule_shape (rows : list (list pystr)) :
  NoDup (parse_delivery_schedule rows).*1
  ∧ Forall (λ kv, kv.1 ∈ section_names
                  ∧ ∃ data, kv.2 = schedule_header :: data
                            ∧ Forall (λ r, length r = 7) data)
           (parse_delivery_schedule rows).
Proof.
  unfold parse_delivery_schedule.
  destruct (schedule_foldl_inv rows (ScheduleState [] None)) as (Hnd & Hwf & _).
  - split; [constructor|]. split; [constructor|done].
  - by split.
Qed.

End ScheduleFacts.

(** ** The method definitions and the sections of a merged pair *)

Module SectionFacts.
Import ApiDocs TextFacts ApiSchedule ScheduleFacts DocumentFacts.

(** The dictionary of sections is an insertion-ordered dictionary. *)
Lemma dict_set_assoc key value d : dict_set key value d = assoc_set key value d.
Proof.
  induction d as [|[k v] d IH]; cbn [dict_set assoc_set]; [done|].
  by rewrite IH.
Qed.

Lemma dict_get_assoc key d : dict_get key d = assoc_get key d.
Proof.
  induction d as [|[k v] d IH]; cbn [dict_get assoc_get]; [done|].
  by rewrite IH.
Qed.

Lemma dict_get_set_eq key value d : dict_get key (dict_set key value d) = Some value.
Proof.
  induction d as [|[k v] d IH]; cbn [dict_set dict_get]; unfold streq.
  - by rewrite bool_decide_eq_true_2.
  - case_bool_decide as Hk; cbn [dict_get]; unfold streq.
    + by rewrite bool_decide_eq_true_2.
    + by rewrite bool_decide_eq_false_2.
Qed.

Lemma dict_get_set_ne key k value d :
  k ≠ key → dict_get key (dict_set k value d) = dict_get key d.
Proof.
  intros Hne. induction d as [|[k' v] d IH]; cbn [dict_set dict_get];
    unfold streq.
  - by rewrite bool_decide_eq_false_2.
  - case_bool_decide as Hk; cbn [dict_get]; unfold streq.
    + subst k'. by rewrite !bool_decide_eq_false_2.
    + case_bool_decide; [done|]. apply IH.
Qed.

Lemma dict_get_foldl (f : pystr → pystr) key keys : ∀ acc,
  dict_get key (foldl (λ acc k, dict_set k (f k) acc) acc keys)
    = if decide (key ∈ keys) then Some (f key) else dict_get key acc.
Proof.
  induction keys as [|k keys IH]; intros acc; cbn [foldl].
  - by rewrite decide_False by (by intros ?%elem_of_nil).
  - rewrite IH. destruct (decide (key ∈ keys)) as [Hin|Hin].
    + by rewrite decide_True by (by right).
    + destruct (decide (k = key)) as [->|Hne].
      * rewrite decide_True by (by left). apply dict_get_set_eq.
      * rewrite decide_False by (by intros [?|?]%elem_of_cons).
        by apply dict_get_set_ne.
Qed.

Lemma dict_keys_foldl (f : pystr → pystr) keys : ∀ acc,
  NoDup acc.*1 →
  NoDup (foldl (λ acc k, dict_set k (f k) acc) acc keys).*1.
Proof.
  induction keys as [|k keys IH]; intros acc Hacc; cbn [foldl]; [done|].
  apply IH. rewrite dict_set_assoc. by apply assoc_set_nodup.
Qed.

(** X20.  The sections of a merged pair hold every section key of either member
    once, whatever the order in which the set of keys is iterated; the text
    under a key is the primary member's when that is non-empty and the
    secondary member's otherwise. *)
Theorem merged_sections_lookup (set_order : list pystr → list pystr)
    (p s : list (pystr * pystr)) (key : pystr) :
  (∀ keys k, k ∈ set_order keys ↔ k ∈ keys) →
  NoDup (merged_sections set_order p s).*1
  ∧ dict_get key (merged_sections set_order p s)
    = if decide (key ∈ p.*1 ++ s.*1)
      then Some (let primary := default [] (dict_get key p) in
                 if truthy primary then primary
                 else default [] (dict_get key s))
      else None.
Proof.
  intros Horder. unfold merged_sections. split.
  - apply dict_keys_foldl. constructor.
  - rewrite dict_get_foldl. cbn [dict_get].
    destruct (decide (key ∈ set_order _)) as [Hin|Hin],
             (decide (key ∈ p.*1 ++ s.*1)) as [Hin'|Hin']; try done.
    + unfold merged_value, str_or. cbv zeta.
      destruct (truthy (default [] (dict_get key p))); [done|].
      by destruct (default [] (dict_get key s)).
    + exfalso. apply Hin'. by apply (Horder _ key).
    + exfalso. apply Hin. by apply Horder.
Qed.

Lemma merged_sections_example :
  dict_get (u "構文")
    (merged_sections first_seen
       [(u "構文", []); (u "解説", u "primary")]
       [(u "構文", u "secondary"); (u "戻り値", u "value")])
  = Some (u "secondary").
Proof.
  rewrite (proj2 (merged_sections_lookup first_seen
                    [(u "構文", []); (u "解説", u "primary")]
                    [(u "構文", u "secondary"); (u "戻り値", u "value")]
                    (u "構文")
                    (λ keys k, elem_of_remove_dups keys k))).
  by vm_compute.
Defined.

(** *** What every method definition satisfies *)

Definition well_formed_method (m : MethodDefinition) : Prop :=
  in_method_set (summary m) = false
  ∧ startswith (summary m) open_bracket = false
  ∧ NoDup (sections m).*1
  ∧ Forall (λ kv, strip kv.2 = kv.2) (sections m).

Definition definitions_inv (st : scan_state) : Prop :=
  Forall well_formed_method (scanned st).

Lemma new_method_well_formed line : well_formed_method (MkMethod line [] []).
Proof.
  split; [by vm_compute|]. split; [done|]. split; constructor.
Qed.

Lemma outer_step_methods st line :
  definitions_inv st → definitions_inv (outer_step st line).
Proof.
  intros Hinv. unfold outer_step.
  destruct (METHOD_NAMES !! method_idx st) as [expected|]; [|done].
  destruct (streq line expected).
  - unfold definitions_inv, scanned in *. cbn [methods current option_list].
    apply Forall_app. split; [done|]. apply Forall_singleton.
    apply new_method_well_formed.
  - destruct (current st) as [m0|] eqn:Hcur; [|done].
    destruct (is_label line); [|done].
    unfold definitions_inv, scanned in *. cbn [methods current].
    by rewrite <- Hcur.
Qed.

Lemma close_block_methods st key block :
  definitions_inv st → definitions_inv (close_block st key block).
Proof.
  unfold definitions_inv, scanned, close_block. cbn [methods current].
  intros [Hms Hcur]%Forall_app. apply Forall_app. split; [done|].
  destruct (current st) as [m0|]; [|done].
  assert (Hm0 : well_formed_method m0) by (by inversion Hcur).
  destruct Hm0 as (Hs1 & Hs2 & Hnd & Hstrip).
  apply Forall_singleton.
  split; [done|]. split; [done|]. cbn [sections].
  rewrite dict_set_assoc. split.
  - by apply assoc_set_nodup.
  - apply assoc_set_Forall; [done|]. apply strip_idemp.
Qed.

Lemma scan_step_methods st line :
  definitions_inv st → definitions_inv (scan_step st line).
Proof.
  intros Hinv. unfold scan_step. destruct (mode st) as [| |key block].
  - by apply outer_step_methods.
  - destruct (negb (truthy line)); [done|].
    destruct (negb (in_method_set line) && negb (startswith line open_bracket))
      eqn:Hcond.
    + unfold definitions_inv, scanned in *. cbn [methods current].
      apply Forall_app in Hinv as [Hms Hcur]. apply Forall_app. split; [done|].
      destruct (current st) as [m0|]; [|done].
      assert (Hm0 : well_formed_method m0) by (by inversion Hcur).
      destruct Hm0 as (_ & _ & Hnd & Hstrip).
      apply andb_prop in Hcond as [H1%negb_true_iff H2%negb_true_iff].
      apply Forall_singleton.
      split; [exact H1|]. split; [exact H2|]. split; [exact Hnd|exact Hstrip].
    + by apply outer_step_methods.
  - destruct (negb (truthy line)); [done|].
    destruct (is_label line);
      [by apply outer_step_methods, close_block_methods|].
    case_bool_decide; [by apply outer_step_methods, close_block_methods|done].
Qed.

Lemma scan_methods_well_formed lines :
  Forall well_formed_method (scan_methods lines).
Proof.
  unfold scan_methods.
  assert (Hinv : ∀ st, definitions_inv st → definitions_inv (foldl scan_step st lines)).
  { induction lines as [|l lines IH]; intros st Hst; cbn [foldl]; [done|].
    by apply IH, scan_step_methods. }
  specialize (Hinv (ScanState [] None 0 Outer) (Forall_nil_2 _)).
  set (st := foldl scan_step _ lines) in *.
  unfold scan_finish. destruct (mode st) as [| |key block]; try exact Hinv.
  by apply (close_block_methods st key block).
Qed.

(** X21.  Every method the segmenter produces has a summary that is no method name
    and does not open a section label, and its sections form a dictionary: no
    key twice, every text stripped. *)
Theorem method_definitions_well_formed
    (merged : list pystr) (ms : list MethodDefinition) (m : MethodDefinition) :
  segment_methods merged = Ok ms →
  m ∈ ms →
  (summary m ∉ method_set)
  ∧ startswith (summary m) (u "【") = false
  ∧ NoDup (sections m).*1
  ∧ ∀ key text, (key, text) ∈ sections m → strip text = text.
Proof.
  intros [lines ->]%SegmenterFacts.segment_methods_scan Hm.
  pose proof (scan_methods_well_formed lines) as Hall.
  rewrite Forall_forall in Hall.
  destruct (Hall m Hm) as (Hs1 & Hs2 & Hnd & Hstrip).
  split; [|split; [done|split; [done|]]].
  - unfold in_method_set in Hs1. by apply bool_decide_eq_false in Hs1.
  - intros key text Hin. rewrite Forall_forall in Hstrip.
    apply (Hstrip _ Hin).
Qed.

Lemma method_definitions_example :
  ∃ ms m,
    segment_methods full_document = Ok ms
    ∧ ms !! 0 = Some m
    ∧ summary m = u "summary"
    ∧ NoDup (sections m).*1.
Proof.
  destruct (segment_methods full_document) as [ms|] eqn:Hms;
    [|by vm_compute in Hms].
  destruct (ms !! 0) as [m|] eqn:Hm.
  - exists ms, m. split; [done|]. split; [done|].
    pose proof (method_definitions_well_formed _ _ m Hms
                  (list_elem_of_lookup_2 _ _ _ Hm)) as (_ & _ & Hnd & _).
    split; [|exact Hnd].
    vm_compute in Hms. injection Hms as <-.
    vm_compute in Hm. by injection Hm as <-.
  - vm_compute in Hms. injection Hms as <-. by vm_compute in Hm.
Defined.

End SectionFacts.

(** ** The error catalog: the whitespace of a normalised text *)

Module SpacingFacts.
Import ErrorCatalog TextFacts SentenceFacts.

Definition space : N := 0x20%N.

(** Every whitespace code point of [s] is U+0020 and no two stand side by
    side; [after_space] tells that a space stands right before [s]. *)
Fixpoint single_spaced (after_space : bool) (s : pystr) : Prop :=
  match s with
  | [] => True
  | c :: r =>
    if is_space c
    then c = space ∧ after_space = false ∧ single_spaced true r
    else single_spaced false r
  end.

Lemma single_spaced_weaken b s : single_spaced b s → single_spaced false s.
Proof.
  destruct s as [|c r]; [done|]. cbn [single_spaced].
  destruct (is_space c); [|done]. by intros (? & _ & ?).
Qed.

Lemma single_spaced_suffix a : ∀ b s,
  single_spaced b (a ++ s) → single_spaced false s.
Proof.
  induction a as [|c a IH]; intros b s; cbn [app].
  - apply single_spaced_weaken.
  - cbn [single_spaced]. destruct (is_space c).
    + intros (_ & _ & Hr). by eapply IH.
    + apply IH.
Qed.

(** A text that does not start with whitespace. *)
Definition starts_solid (s : pystr) : Prop :=
  ∀ c, head s = Some c → is_space c = false.

Lemma single_spaced_solid b b' s :
  starts_solid s → single_spaced b s → single_spaced b' s.
Proof.
  destruct s as [|c r]; [done|]. intros Hs. cbn [single_spaced].
  by rewrite (Hs c eq_refl).
Qed.

(** What follows a prefix is replaced by a text that starts solid. *)
Lemma single_spaced_prefix a : ∀ b s t,
  single_spaced b (a ++ s) → starts_solid t → single_spaced false t →
  single_spaced b (a ++ t).
Proof.
  induction a as [|c a IH]; intros b s t; cbn [app].
  - intros _ Ht Hst. by eapply single_spaced_solid.
  - cbn [single_spaced]. destruct (is_space c).
    + intros (? & ? & Hr) Ht Hst. split; [done|]. split; [done|]. by eapply IH.
    + intros Hr Ht Hst. by eapply IH.
Qed.

Lemma single_spaced_elem s : ∀ b c,
  single_spaced b s → c ∈ s → is_space c = true → c = space.
Proof.
  induction s as [|x r IH]; intros b c Hs Hc Hsp; [by apply elem_of_nil in Hc|].
  cbn [single_spaced] in Hs. apply elem_of_cons in Hc as [->|Hc].
  - rewrite Hsp in Hs. by destruct Hs.
  - destruct (is_space x); [destruct Hs as (_ & _ & Hs)|]; by eapply IH.
Qed.

Lemma single_spaced_adjacent s : ∀ b i c d,
  single_spaced b s → s !! i = Some c → s !! S i = Some d →
  is_space c = true → is_space d = false.
Proof.
  induction s as [|x r IH]; intros b i c d Hs Hc Hd Hsp; [done|].
  cbn [single_spaced] in Hs. destruct i as [|i].
  - injection Hc as ->. rewrite Hsp in Hs. destruct Hs as (_ & _ & Hr).
    destruct r as [|y r]; [done|]. injection Hd as ->.
    cbn [single_spaced] in Hr. destruct (is_space d); [|done].
    by destruct Hr as (_ & ? & _).
  - destruct (is_space x); [destruct Hs as (_ & _ & Hs)|];
      exact (IH _ i c d Hs Hc Hd Hsp).
Qed.

(** *** The last substitution of whitespace *)

Lemma sub_runs_single_spaced s : ∀ prev,
  single_spaced false (sub_space_runs any_char any_char (u " ") prev NoRun s)
  ∧ single_spaced true (sub_space_runs any_char any_char (u " ") prev DropRun s).
Proof.
  induction s as [|c r IH]; intros prev; [done|].
  cbn [sub_space_runs]. destruct (is_space c) eqn:Hc.
  - destruct (IH prev) as [_ Hdrop]. split; [|done].
    change (any_char prev && any_char (head (lstrip r))) with true.
    cbv iota. change (u " ") with [space]. cbn [app single_spaced].
    change (is_space space) with true. cbv iota. by split.
  - destruct (IH (Some c)) as [Hno _].
    split; cbn [single_spaced]; by rewrite Hc.
Qed.

(** *** The sentence breaks *)

Lemma sub_sentence_break_skip ends excluded starts s : ∀ skip,
  sub_sentence_break ends excluded starts skip s
    = sub_sentence_break ends excluded starts 0 (drop skip s).
Proof.
  induction s as [|c r IH]; intros [|k]; try done.
  cbn [sub_sentence_break drop]. apply IH.
Qed.

Lemma sub_sentence_break_spaced ends excluded starts n :
  Forall (λ e, e ≠ []) ends →
  ∀ s b, length s ≤ n → single_spaced b s →
         single_spaced b (sub_sentence_break ends excluded starts 0 s).
Proof.
  intros Hends.
  induction n as [|n IH]; intros [|c r] b Hlen Hs; cbn [length] in Hlen;
    try done; try lia.
  assert (Hkeep : single_spaced b
                    (c :: sub_sentence_break ends excluded starts 0 r)).
  { cbn [single_spaced] in *. destruct (is_space c).
    - destruct Hs as (? & ? & Hr). split; [done|]. split; [done|].
      apply IH; [lia|done].
    - apply IH; [lia|done]. }
  cbn [sub_sentence_break].
  destruct (find _ ends) as [e|] eqn:He; [|done].
  destruct (_ && _); [|done].
  destruct (find _ starts) as [st|] eqn:Hst; [|done].
  apply find_some in He as [Hin He]. apply find_some in Hst as [_ Hst].
  assert (Hne : e ≠ []).
  { rewrite Forall_forall in Hends. by apply Hends, list_elem_of_In. }
  apply startswith_inv in He as [rest Hrest].
  rewrite Hrest, drop_app_length in Hst.
  apply startswith_inv in Hst as [tl ->].
  rewrite sub_sentence_break_skip.
  assert (Hdrop : drop (pred (length e + length st)) r = tl).
  { destruct e as [|x e]; [done|]. injection Hrest as _ ->.
    cbn [length Nat.add pred].
    by rewrite app_assoc, <- length_app, drop_app_length. }
  rewrite Hdrop. rewrite Hrest in Hs.
  assert (Hlen' : length tl ≤ n).
  { apply (f_equal length) in Hrest. rewrite !length_app in Hrest.
    cbn [length] in Hrest. destruct e; [done|]. cbn [length] in Hrest. lia. }
  eapply single_spaced_prefix; [exact Hs| |].
  - intros x [= <-]. by vm_compute.
  - cbn [app single_spaced]. change (is_space full_stop) with false. cbv iota.
    apply IH; [done|]. rewrite app_assoc in Hs. by eapply single_spaced_suffix.
Qed.

Lemma insert_sentence_breaks_spaced b s :
  single_spaced b s → single_spaced b (insert_sentence_breaks s).
Proof.
  assert (Hsub : ∀ ends excluded starts t,
            Forall (λ e : pystr, e ≠ []) ends → single_spaced b t →
            single_spaced b (sub_sentence_break ends excluded starts 0 t)).
  { intros ends excluded starts t Hends Ht.
    by apply (sub_sentence_break_spaced _ _ _ (length t)). }
  intros Hs. unfold insert_sentence_breaks. cbv zeta.
  repeat (apply Hsub; [apply (bool_decide_unpack _); by vm_compute|]).
  done.
Qed.

(** *** [strip] *)

Lemma rstrip_prefix s : ∃ z, s = rstrip s ++ z.
Proof.
  unfold rstrip. destruct (lstrip_suffix (reverse s)) as [k Hk].
  exists (reverse k). rewrite <- reverse_app, <- Hk.
  by rewrite reverse_involutive.
Qed.

Lemma strip_single_spaced b s :
  single_spaced b s → single_spaced false (strip s).
Proof.
  unfold strip. destruct (lstrip_suffix s) as [k Hk].
  destruct (rstrip_prefix (lstrip s)) as [z Hz]. intros Hs.
  rewrite Hk in Hs. apply single_spaced_suffix in Hs. rewrite Hz in Hs.
  rewrite <- (app_nil_r (rstrip _)).
  by eapply single_spaced_prefix.
Qed.

(** X22.  The text [normalize_text] returns neither begins nor ends with
    whitespace; the only whitespace in it is U+0020, and no two spaces stand
    side by side. *)
Theorem normalize_text_spacing (raw : pystr) :
  (∀ c, c ∈ normalize_text raw → is_space c = true → c = space)
  ∧ (∀ i c d, normalize_text raw !! i = Some c →
              normalize_text raw !! S i = Some d →
              is_space c = true → is_space d = false)
  ∧ (∀ c, head (normalize_text raw) = Some c → is_space c = false)
  ∧ (∀ c, last (normalize_text raw) = Some c → is_space c = false).
Proof.
  assert (Hs : single_spaced false (normalize_text raw)).
  { unfold normalize_text. cbv zeta.
    eapply strip_single_spaced, insert_sentence_breaks_spaced.
    apply (sub_runs_single_spaced _ None). }
  split; [|split; [|split]].
  - intros c. by eapply single_spaced_elem.
  - intros i c d. by eapply single_spaced_adjacent.
  - unfold normalize_text. apply strip_head.
  - unfold normalize_text. apply strip_last.
Qed.

End SpacingFacts.
